(** * SEC filings pipeline: segmentation, metric extraction, indexing keys,
      filter translation and result reconciliation

    A shallow embedding of [src/data/processor.py] (SECDocumentProcessor),
    of [src/storage/vector_store.py] (VectorStore) and of the two methods of
    [test_system.py] (SECAnalyzer) that query the store, [analyze_topic]
    and [_organize_results].

    Modelling conventions.
    - A Python [str] is a [string]; one [ascii] stands for one character, so
      the texts covered are those over the code points below 256.
    - Python's [re] is embedded as a backtracking matcher over a small
      pattern syntax; each pattern of the source is transcribed construct by
      construct.
    - A Python [float] obtained from a decimal literal is the rational the
      literal denotes (type [Q], kept in lowest terms); binary rounding is
      not modelled.
    - Exceptions are results in [option]: [None] is a raised exception.
    - The metadata dictionaries handed to the reconciler are objects in a
      store addressed by references, because the source updates them in
      place. *)

From Stdlib Require Import ZArith QArith Ascii String List Lia Bool.
From stdpp Require Import gmap strings list pretty.

Local Open Scope list_scope.

(** ** Strings *)

Definition nl : ascii := "010"%char.
Definition NL : string := String nl "".

Definition str_nonempty (s : string) : bool :=
  match s with EmptyString => false | String _ _ => true end.

(** [s[:n]] *)
Fixpoint str_take (n : nat) (s : string) : string :=
  match n, s with
  | S n', String c s' => String c (str_take n' s')
  | _, _ => EmptyString
  end.
Global Arguments str_take : simpl never.

(** [sep.join(l)] *)
Fixpoint str_join (sep : string) (l : list string) : string :=
  match l with
  | [] => ""
  | [x] => x
  | x :: rest => x +:+ sep +:+ str_join sep rest
  end.

(** [s.split(c)] for a one-character separator: never returns the empty
    list, [''.split(c) = ['']]. *)
Fixpoint str_split (c : ascii) (s : string) : list string :=
  match s with
  | EmptyString => [""]
  | String a s' =>
      if Ascii.eqb a c then "" :: str_split c s'
      else match str_split c s' with
           | l :: ls => String a l :: ls
           | [] => [String a ""]
           end
  end.

(** [s.replace(c, '')] for a one-character [c]. *)
Fixpoint str_remove (c : ascii) (s : string) : string :=
  match s with
  | EmptyString => ""
  | String a s' => if Ascii.eqb a c then str_remove c s' else String a (str_remove c s')
  end.

(** ** Regular expressions: the fragment of [re] the source uses *)

Module Re.

Inductive regex : Type :=
| Eps
| Lit (c : ascii)
| Cls (p : ascii -> bool)
| Cat (r1 r2 : regex)
| Alt (r1 r2 : regex)
| Star (r : regex)
| Grp (n : nat) (r : regex).

Definition Opt (r : regex) : regex := Alt r Eps.          (* r?  *)
Definition Plus (r : regex) : regex := Cat r (Star r).    (* r+  *)
Definition seq (l : list regex) : regex := foldr Cat Eps l.
Fixpoint lit (s : string) : regex :=
  match s with
  | EmptyString => Eps
  | String c s' => Cat (Lit c) (lit s')
  end.

Definition code (c : ascii) : nat := nat_of_ascii c.

(** [\d] on code points below 256. *)
Definition is_digit (c : ascii) : bool := (48 <=? code c) && (code c <=? 57).

(** [\s] of a [str] pattern on code points below 256: the ASCII white
    space, the separators 0x1c..0x1f, NEL (0x85) and NBSP (0xa0). *)
Definition is_space (c : ascii) : bool :=
  let n := code c in
  ((9 <=? n) && (n <=? 13)) || ((28 <=? n) && (n <=? 32))
  || (n =? 133) || (n =? 160).

Definition ws : regex := Cls is_space.
Definition dg : regex := Cls is_digit.

Definition lower (c : ascii) : ascii :=
  let n := code c in
  if (65 <=? n) && (n <=? 90) then ascii_of_nat (n + 32) else c.

(** A literal character under the IGNORECASE flag [ic]. *)
Definition lit_match (ic : bool) (c x : ascii) : bool :=
  if ic then Ascii.eqb (lower c) (lower x) else Ascii.eqb c x.

(** Captured groups, innermost last written first. *)
Definition caps := list (nat * string).

Definition group (g : caps) (n : nat) : option string :=
  snd <$> List.find (fun e => Nat.eqb (fst e) n) g.

Section Matcher.
Context {A : Type}.
Variable ic : bool.

(** Greedy repetition of [body]: try one more iteration, which has to
    consume a character, before leaving the loop.  No pattern of the
    source repeats a body that can match the empty string; the number
    of iterations is bounded by the length left. *)
Fixpoint star_loop
    (body : string -> caps -> (string -> caps -> option A) -> option A)
    (k : string -> caps -> option A)
    (n : nat) (s : string) (g : caps) {struct n} : option A :=
  match n with
  | O => k s g
  | S n' =>
      match body s g (fun s' g' =>
              if String.length s' <? String.length s
              then star_loop body k n' s' g' else None) with
      | Some x => Some x
      | None => k s g
      end
  end.

(** Backtracking matcher in continuation style: greedy repetition,
    ordered alternation, first success wins.  [k] receives the rest of
    the subject and the groups set so far. *)
Fixpoint run (r : regex) (s : string) (g : caps)
    (k : string -> caps -> option A) {struct r} : option A :=
  match r with
  | Eps => k s g
  | Lit c =>
      match s with
      | String x s' => if lit_match ic c x then k s' g else None
      | EmptyString => None
      end
  | Cls p =>
      match s with
      | String x s' => if p x then k s' g else None
      | EmptyString => None
      end
  | Cat r1 r2 => run r1 s g (fun s' g' => run r2 s' g' k)
  | Alt r1 r2 =>
      match run r1 s g k with
      | Some x => Some x
      | None => run r2 s g k
      end
  | Star r' => star_loop (run r') k (String.length s) s g
  | Grp n r' =>
      run r' s g (fun s' g' =>
        k s' ((n, str_take (String.length s - String.length s') s) :: g'))
  end.
End Matcher.

(** [pattern.match(s)]: the rest after the match and the groups. *)
Definition match_at (ic : bool) (r : regex) (s : string) : option (string * caps) :=
  run ic r s [] (fun s' g => Some (s', g)).

(** [re.search(r, s)] as a truth value: a match at some offset. *)
Fixpoint search (ic : bool) (r : regex) (s : string) : bool :=
  match match_at ic r s with
  | Some _ => true
  | None =>
      match s with
      | EmptyString => false
      | String _ s' => search ic r s'
      end
  end.

(** [re.finditer(r, s)]: the non-overlapping matches from left to right,
    each given by its groups.  After a match the scan resumes where the
    match ended; the patterns of the source never match the empty string,
    an empty match would move on by one character. *)
Fixpoint finditer_from (fuel : nat) (ic : bool) (r : regex) (s : string) : list caps :=
  match fuel with
  | O => []
  | S fuel' =>
      let skip :=
        match s with
        | EmptyString => []
        | String _ s' => finditer_from fuel' ic r s'
        end in
      match match_at ic r s with
      | Some (s', g) =>
          g :: (if String.length s' <? String.length s
                then finditer_from fuel' ic r s' else skip)
      | None => skip
      end
  end.

Definition finditer (ic : bool) (r : regex) (s : string) : list caps :=
  finditer_from (S (String.length s)) ic r s.

(** [re.sub(r, repl, s)] for a literal replacement: every match, from
    left to right, is replaced; the other characters are copied. *)
Fixpoint sub_from (fuel : nat) (ic : bool) (r : regex) (repl s : string) : string :=
  match fuel with
  | O => s
  | S fuel' =>
      let copy :=
        match s with
        | EmptyString => ""
        | String c s' => String c (sub_from fuel' ic r repl s')
        end in
      match match_at ic r s with
      | Some (s', _) =>
          if String.length s' <? String.length s
          then repl +:+ sub_from fuel' ic r repl s' else copy
      | None => copy
      end
  end.

Definition sub (ic : bool) (r : regex) (repl s : string) : string :=
  sub_from (S (String.length s)) ic r repl s.

(** The language of a pattern, independently of the matcher: [matches ic
    r s] says that the whole of [s] is a match of [r]. *)
Inductive matches (ic : bool) : regex -> string -> Prop :=
| M_eps : matches ic Eps ""
| M_lit c x : lit_match ic c x = true -> matches ic (Lit c) (String x "")
| M_cls (p : ascii -> bool) x : p x = true -> matches ic (Cls p) (String x "")
| M_cat r1 r2 s1 s2 :
    matches ic r1 s1 -> matches ic r2 s2 -> matches ic (Cat r1 r2) (s1 +:+ s2)
| M_alt_l r1 r2 s : matches ic r1 s -> matches ic (Alt r1 r2) s
| M_alt_r r1 r2 s : matches ic r2 s -> matches ic (Alt r1 r2) s
| M_star_nil r : matches ic (Star r) ""
| M_star_cons r s1 s2 :
    s1 <> "" -> matches ic r s1 -> matches ic (Star r) s2 ->
    matches ic (Star r) (s1 +:+ s2)
| M_grp n r s : matches ic r s -> matches ic (Grp n r) s.

(** [s] contains a match of [r] somewhere. *)
Definition occurs (ic : bool) (r : regex) (s : string) : Prop :=
  exists pre mid post, s = pre +:+ mid +:+ post /\ matches ic r mid.

(** Patterns without capturing group. *)
Fixpoint no_groups (r : regex) : bool :=
  match r with
  | Eps | Lit _ | Cls _ => true
  | Cat r1 r2 | Alt r1 r2 => no_groups r1 && no_groups r2
  | Star r' => no_groups r'
  | Grp _ _ => false
  end.

End Re.

Import Re.

(** ** Section Classifier: [SECDocumentProcessor.section_patterns],
       [_identify_section] *)

Definition item (num : string) : regex :=
  Opt (Grp 1 (seq [lit "Item"; Star ws; lit num; Opt (Lit "."); Star ws])).

Definition section_patterns : list (string * regex) :=
  [ ("risk_factors",
      seq [item "1A"; lit "Risk"; Star ws; lit "Factors"]);
    ("mda",
      seq [item "7"; lit "Management"; Opt (Lit "'"); Opt (Lit "s"); Star ws;
           lit "Discussion"; Star ws; lit "and"; Star ws; lit "Analysis"]);
    ("business",
      seq [item "1"; lit "Business"]);
    ("financial_statements",
      seq [item "8"; lit "Financial"; Star ws; lit "Statements"]);
    ("market_risk",
      seq [item "7A"; lit "Quantitative"; Star ws; lit "and"; Star ws;
           lit "Qualitative"; Star ws; lit "Disclosures"; Star ws;
           Cls (fun c => Ascii.eqb c "A" || Ascii.eqb c "a"); lit "bout"; Star ws;
           lit "Market"; Star ws; lit "Risk"]) ].

Definition _identify_section (text : string) : string :=
  match List.find (fun sp => Re.search true (snd sp) text) section_patterns with
  | Some (section_type, _) => section_type
  | None => "other"
  end.

(** ** Segmenter: [_split_into_sections] *)

Record seg_state := SegState {
  sections : list (string * string);
  current_text : string;
  current_type : string
}.

Definition seg_init : seg_state := SegState [] "" "other".

Definition emit (st : seg_state) : list (string * string) :=
  if str_nonempty (current_text st)
  then sections st ++ [(current_text st, current_type st)]
  else sections st.

(** One iteration of the loop over the lines. *)
Definition seg_step (st : seg_state) (line : string) : seg_state :=
  let section_type := _identify_section line in
  if negb (String.eqb section_type "other") then
    SegState (emit st) line section_type
  else
    SegState (sections st) (current_text st +:+ NL +:+ line) (current_type st).

(** The loop over the lines followed by the final [if current_text]. *)
Definition spans_of_lines (lines : list string) : list (string * string) :=
  emit (fold_left seg_step lines seg_init).

Definition _split_into_sections (text : string) : list (string * string) :=
  spans_of_lines (str_split nl text).

(** A line that the classifier assigns to a section. *)
Definition is_header (line : string) : bool :=
  negb (String.eqb (_identify_section line) "other").

(** The segmentation step as the specification words it: a line whose tag
    differs from the tag of the span being accumulated closes that span and
    seeds a new one, any other line is appended.  Only compared with
    [seg_step], never used by the pipeline. *)
Definition spec_seg_step (st : seg_state) (line : string) : seg_state :=
  let section_type := _identify_section line in
  if negb (String.eqb section_type (current_type st)) then
    SegState (emit st) line section_type
  else
    SegState (sections st) (current_text st +:+ NL +:+ line) (current_type st).

Definition spec_split_into_sections (text : string) : list (string * string) :=
  emit (fold_left spec_seg_step (str_split nl text) seg_init).

(** ** Metric Extractor: [_extract_metrics] *)

(** [\$\s*(\d+(?:,\d{3})*(?:\.\d{2})?)\s*(million|billion|trillion)?],
    with its two groups named. *)
Definition currency_number : regex :=
  seq [Plus dg; Star (seq [Lit ","; dg; dg; dg]); Opt (seq [Lit "."; dg; dg])].

Definition scale_word : regex :=
  Alt (lit "million") (Alt (lit "billion") (lit "trillion")).

Definition currency_pattern : regex :=
  seq [Lit "$"; Star ws; Grp 1 currency_number; Star ws; Opt (Grp 2 scale_word)].

(** [(\d+(?:\.\d+)?)\s*%] *)
Definition percentage_number : regex :=
  seq [Plus dg; Opt (seq [Lit "."; Plus dg])].

Definition percentage_pattern : regex :=
  seq [Grp 1 percentage_number; Star ws; Lit "%"].

(** A string of decimal digits, possibly empty. *)
Definition digit_string (s : string) : Prop :=
  forallb is_digit (list_ascii_of_string s) = true.

Definition all_digits (s : string) : bool :=
  str_nonempty s && forallb is_digit (list_ascii_of_string s).

Definition digits_value (s : string) : Z :=
  fold_left (fun acc c => (10 * acc + Z.of_nat (code c - 48))%Z)
            (list_ascii_of_string s) 0%Z.

(** [float(s)] on the literals the two patterns can capture, [digits] and
    [digits.digits]: the rational the literal denotes.  Any other string is
    rejected here. *)
Definition float_of_decimal (s : string) : option Q :=
  match str_split "." s with
  | [i] => if all_digits i then Some (Qmake (digits_value i) 1) else None
  | [i; f] =>
      if all_digits i && all_digits f
      then Some (Qred (Qmake (digits_value (i +:+ f))
                             (Pos.pow 10 (Pos.of_nat (String.length f)))))
      else None
  | _ => None
  end.

(** [{'million': 1e6, 'billion': 1e9, 'trillion': 1e12}[w]] *)
Definition multiplier (w : string) : option Q :=
  if String.eqb w "million" then Some (Qmake 1000000 1)
  else if String.eqb w "billion" then Some (Qmake 1000000000 1)
  else if String.eqb w "trillion" then Some (Qmake 1000000000000 1)
  else None.

Definition currency_amount (m : caps) : option Q :=
  g1 ← group m 1;
  amount ← float_of_decimal (str_remove "," g1);
  match group m 2 with
  | Some w =>
      if str_nonempty w
      then mult ← multiplier w; Some (Qred (Qmult amount mult))
      else Some amount
  | None => Some amount
  end.

Definition percentage_value (m : caps) : option Q :=
  g1 ← group m 1; float_of_decimal g1.

Definition str_nonempty_list {A} (l : list A) : bool :=
  match l with [] => false | _ => true end.

Record metrics := Metrics {
  currency_amounts : list Q;
  percentages : list Q
}.

Definition _extract_metrics (text : string) : option metrics :=
  cur ← mapM currency_amount (finditer false currency_pattern text);
  pct ← mapM percentage_value (finditer false percentage_pattern text);
  Some (Metrics cur pct).

(** ** Cleaning: [_clean_text] *)

(** [text.split()]: the maximal runs of non-space characters. *)
Fixpoint str_words_go (cur : option string) (s : string) : list string :=
  match s with
  | EmptyString => option_list (String.rev <$> cur)
  | String a s' =>
      if is_space a
      then option_list (String.rev <$> cur) ++ str_words_go None s'
      else str_words_go (Some (String a (default "" cur))) s'
  end.
Definition str_words : string -> list string := str_words_go None.

Fixpoint str_lstrip (s : string) : string :=
  match s with
  | String a s' => if is_space a then str_lstrip s' else s
  | EmptyString => ""
  end.

(** [text.strip()] *)
Definition str_strip (s : string) : string :=
  String.rev (str_lstrip (String.rev (str_lstrip s))).

(** [\w] on code points below 256: letters, digits, the numeric signs of
    Latin-1 and the underscore. *)
Definition is_word (c : ascii) : bool :=
  let n := code c in
  ((48 <=? n) && (n <=? 57)) || ((65 <=? n) && (n <=? 90))
  || ((97 <=? n) && (n <=? 122)) || (n =? 95)
  || (n =? 170) || (n =? 178) || (n =? 179) || (n =? 181)
  || ((185 <=? n) && (n <=? 186)) || ((188 <=? n) && (n <=? 190))
  || ((192 <=? n) && (n <=? 214)) || ((216 <=? n) && (n <=? 246))
  || (248 <=? n).

(** The negated class of the first [re.sub]: everything but [\w], [\s] and
    the signs . , ; : - ( ) ' $ % and the double quote (character 34). *)
Definition disallowed (c : ascii) : bool :=
  negb (is_word c || is_space c
        || existsb (Ascii.eqb c) [".";",";";";":";"-";"(";")";"'";"034";"$";"%"]%char).

Definition _clean_text (text : string) : string :=
  let text := str_join " " (str_words text) in
  let text := sub false (Cls disallowed) " " text in
  let text := sub false (Plus ws) " " text in
  str_strip text.

(** ** Documents and chunks *)

(** [models/document.py].  [filing_date] holds the text that
    [str(document.filing_date)] yields. *)
Record SECDocument := {
  filing_id : string;
  company_name : string;
  ticker : string;
  filing_type : string;
  filing_date : string;
  document_text : string;
  doc_metadata : gmap string string;
  doc_sections : gmap string string
}.

(** A value of a metadata record: the source stores strings and integers. *)
Inductive mval : Type :=
| MStr (s : string)
| MInt (z : Z).

Global Instance mval_eq_dec : EqDecision mval.
Proof. solve_decision. Defined.

(** [{"text": ..., "metadata": {...}}] *)
Record chunk_dict := ChunkDict {
  text : string;
  metadata : gmap string mval
}.

Section Processor.
(** [RecursiveCharacterTextSplitter.split_text] (langchain) and [str] on a
    float: library functions of which the pipeline only uses the results. *)
Variable split_text : string -> list string.
Variable str_float : Q -> string.

Definition chunk_record (document : SECDocument) (section_type : string)
    (total_chunks i : nat) (chunk : string) : option chunk_dict :=
  m ← _extract_metrics chunk;
  Some (ChunkDict chunk
    (list_to_map
       [ ("filing_id", MStr (filing_id document));
         ("company_name", MStr (company_name document));
         ("ticker", MStr (ticker document));
         ("filing_type", MStr (filing_type document));
         ("filing_date", MStr (filing_date document));
         ("section", MStr section_type);
         ("chunk_index", MInt (Z.of_nat i));
         ("total_chunks", MInt (Z.of_nat total_chunks));
         ("currency_amounts",
            MStr (str_join "," (map str_float (currency_amounts m))));
         ("percentages",
            MStr (str_join "," (map str_float (percentages m))));
         ("has_metrics",
            MStr (if str_nonempty_list (currency_amounts m)
                     || str_nonempty_list (percentages m)
                  then "true" else "false")) ])).

(** The chunks of one section: the body of the loop over [sections]. *)
Definition section_chunks (document : SECDocument)
    (sec : string * string) : option (list chunk_dict) :=
  let cleaned_text := _clean_text (fst sec) in
  let text_chunks := split_text cleaned_text in
  mapM (fun x => x)
       (imap (chunk_record document (snd sec) (length text_chunks)) text_chunks).

Definition process_document (document : SECDocument) : option (list chunk_dict) :=
  if str_nonempty (document_text document) then
    per_section ← mapM (section_chunks document)
                       (_split_into_sections (document_text document));
    Some (concat per_section)
  else Some [].
End Processor.

(** ** Indexer Adapter: [VectorStore.add_documents] *)

(** How an f-string renders a metadata value. *)
Definition fmt (v : mval) : string :=
  match v with
  | MStr s => s
  | MInt z => pretty z
  end.

(** [f"{doc['metadata']['filing_id']}_{doc['metadata'].get('chunk_index', 0)}"];
    a missing [filing_id] is a KeyError. *)
Definition record_key (doc : chunk_dict) : option string :=
  fid ← metadata doc !! "filing_id";
  Some (fmt fid +:+ "_" +:+ fmt (default (MInt 0) (metadata doc !! "chunk_index"))).

(** The arguments of the call [self.collection.add(...)]. *)
Record add_call := AddCall {
  add_texts : list string;
  add_metadatas : list (gmap string mval);
  add_ids : list string
}.

(** [Some None]: returned without calling the engine. *)
Definition add_documents (documents : list chunk_dict) : option (option add_call) :=
  match documents with
  | [] => Some None
  | _ =>
      ids ← mapM record_key documents;
      Some (Some (AddCall (map text documents) (map metadata documents) ids))
  end.

(** ** Indexer Adapter: [VectorStore._build_where_clause] *)

(** Python values as they occur in a filter specification.  A dictionary is
    an association list in insertion order (keys are meant to be distinct). *)
#[local] Set Warnings "-register-all".
Inductive pyval : Type :=
| PNone
| PBool (b : bool)
| PInt (z : Z)
| PStr (s : string)
| PList (l : list pyval)
| PDict (d : list (string * pyval)).

(** [k in d] and [d[k]] *)
Definition dict_get (d : list (string * pyval)) (k : string) : option pyval :=
  snd <$> List.find (fun kv => String.eqb (fst kv) k) d.

(** [for v in x]: the elements of a list, the characters of a string, the
    keys of a dictionary; anything else is not iterable (TypeError). *)
Definition py_iter (x : pyval) : option (list pyval) :=
  match x with
  | PList l => Some l
  | PStr s => Some (map (fun c => PStr (String c "")) (list_ascii_of_string s))
  | PDict d => Some (map (fun kv => PStr (fst kv)) d)
  | _ => None
  end.

(** The body of the loop over [filter_metadata.items()]: the condition
    appended for one field. *)
Definition condition (key : string) (value : pyval) : option pyval :=
  match value with
  | PDict d =>
      match dict_get d "$in" with
      | Some operand =>
          vs ← py_iter operand;
          Some (PDict [("$or", PList (map (fun v => PDict [(key, v)]) vs))])
      | None => Some (PDict [(key, value)])
      end
  | _ => Some (PDict [(key, value)])
  end.

(** [Some None] is the Python result [None]: no filter expression. *)
Definition _build_where_clause (filter_metadata : option (list (string * pyval)))
    : option (option pyval) :=
  match filter_metadata with
  | None | Some [] => Some None
  | Some fm =>
      conditions ← mapM (fun kv => condition (fst kv) (snd kv)) fm;
      match conditions with
      | [c] => Some (Some c)
      | _ => Some (Some (PDict [("$and", PList conditions)]))
      end
  end.

(** The test [isinstance(value, dict) and "$in" in value]. *)
Definition uses_in (value : pyval) : bool :=
  match value with
  | PDict d => bool_decide (is_Some (dict_get d "$in"))
  | _ => false
  end.

(** The filter shapes the specification supports, in its words: per field
    a plain exact-match value, or an "any of" list of such values.  Only
    used to state what the translation does with the other shapes. *)
Definition plain_value (v : pyval) : bool :=
  match v with
  | PStr _ | PInt _ | PBool _ => true
  | _ => false
  end.

Definition any_of_list (v : pyval) : bool :=
  match v with
  | PDict [(op, PList vs)] => String.eqb op "$in" && forallb plain_value vs
  | _ => false
  end.

Definition supported_filter (fm : list (string * pyval)) : bool :=
  forallb (fun kv => plain_value (snd kv) || any_of_list (snd kv)) fm.

(** ** Result Reconciler: [VectorStore._process_results] *)

(** Metadata dictionaries are objects: [ref] names one, the store maps each
    live reference to its current contents. *)
Abbreviation ref := nat.
Abbreviation store := (gmap nat (gmap string mval)).

(** The result envelope: [{"documents": [[...]], "metadatas": [[...]]}]. *)
Record envelope := Envelope {
  res_documents : list (list string);
  res_metadatas : list (list ref)
}.

Definition summary_text (n_currency n_percentages : nat) : string :=
  "Found " +:+ pretty n_currency +:+ " currency amounts and "
  +:+ pretty n_percentages +:+ " percentage values".

Section Reconciler.
(** Python's [float(x)] on a string: only whether it accepts [x] matters
    here, the parsed values are counted and dropped. *)
Variable float_accepts : string -> bool.

(** [len([float(x) for x in metadata.get(field, '').split(',') if x])];
    [None] when the stored value has no [split] or [float] rejects a part. *)
Definition count_floats (m : gmap string mval) (field : string) : option nat :=
  match default (MStr "") (m !! field) with
  | MStr s =>
      let parts := List.filter str_nonempty (str_split "," s) in
      if forallb float_accepts parts then Some (length parts) else None
  | MInt _ => None
  end.

(** The annotation of a retained result: updates the object [r] in place. *)
Definition annotate (σ : store) (r : ref) : option store :=
  m ← σ !! r;
  if decide (m !! "has_metrics" = Some (MStr "true")) then
    n_currency ← count_floats m "currency_amounts";
    n_percentages ← count_floats m "percentages";
    Some (<[r := <["metrics_summary" := MStr (summary_text n_currency n_percentages)]> m]> σ)
  else Some σ.

(** The loop over [zip(documents[0], metadatas[0])], with its [break]. *)
Fixpoint reconcile (limit : Z) (items : list (string * ref))
    (processed : list (string * ref)) (seen_contents : gset string) (σ : store)
    : option (list (string * ref) * store) :=
  match items with
  | [] => Some (processed, σ)
  | (doc, r) :: items' =>
      let content_sig := str_take 100 doc in
      st ← (if decide (content_sig ∈ seen_contents)
            then Some (processed, seen_contents, σ)
            else σ' ← annotate σ r;
                 Some (processed ++ [(doc, r)], {[content_sig]} ∪ seen_contents, σ'));
      let '(processed', seen', σ') := st in
      if (limit <=? Z.of_nat (length processed'))%Z
      then Some (processed', σ')
      else reconcile limit items' processed' seen' σ'
  end.

Definition empty_envelope : envelope := Envelope [[]] [[]].

Definition _process_results (σ : store) (results : envelope) (limit : Z)
    : option (envelope * store) :=
  match res_documents results with
  | [] => Some (empty_envelope, σ)
  | [] :: _ => Some (empty_envelope, σ)
  | docs0 :: _ =>
      metas0 ← head (res_metadatas results);
      '(processed, σ') ← reconcile limit (zip docs0 metas0) [] ∅ σ;
      Some (Envelope [map fst processed] [map snd processed], σ')
  end.

(** [VectorStore.search]; [collection_query] is the engine's
    [collection.query(query_texts, n_results, where)], returning the
    envelope together with the store that holds its metadata objects. *)
Variable collection_query :
  list string -> Z -> option pyval -> option (envelope * store).

Definition search (query : string)
    (filter_metadata : option (list (string * pyval))) (limit : Z)
    : option (envelope * store) :=
  where_ ← _build_where_clause filter_metadata;
  '(results, σ) ← collection_query [query] (limit * 2)%Z where_;
  _process_results σ results limit.
End Reconciler.

(** The reconciler's result in the words of the specification: of the raw
    pairs, in raw order, those whose 100-character signature was not seen
    before.  Only compared with [reconcile]. *)
Fixpoint first_seen (seen : gset string) (items : list (string * ref))
    : list (string * ref) :=
  match items with
  | [] => []
  | (doc, r) :: items' =>
      if decide (str_take 100 doc ∈ seen) then first_seen seen items'
      else (doc, r) :: first_seen ({[str_take 100 doc]} ∪ seen) items'
  end.

(** The pairs of an envelope: [zip(documents[0], metadatas[0])]. *)
Definition pairs (e : envelope) : list (string * ref) :=
  zip (hd [] (res_documents e)) (hd [] (res_metadatas e)).

(** The stringified metric fields of a record can be parsed back. *)
Definition meta_parses (float_accepts : string -> bool)
    (m : gmap string mval) : Prop :=
  m !! "has_metrics" = Some (MStr "true") ->
  is_Some (count_floats float_accepts m "currency_amounts")
  /\ is_Some (count_floats float_accepts m "percentages").

(** Every pair refers to a live record whose metric fields parse. *)
Definition store_parses (float_accepts : string -> bool) (σ : store)
    (items : list (string * ref)) : Prop :=
  forall doc r, (doc, r) ∈ items ->
    exists m, σ !! r = Some m /\ meta_parses float_accepts m.

(** What the annotation makes of a record [m]. *)
Definition annotated (float_accepts : string -> bool)
    (m m' : gmap string mval) : Prop :=
  exists n1 n2,
    count_floats float_accepts m "currency_amounts" = Some n1
    /\ count_floats float_accepts m "percentages" = Some n2
    /\ m' = <["metrics_summary" := MStr (summary_text n1 n2)]> m.

(** What a run of lines without header contributes to the accumulator. *)
Definition appended (lines : list string) : string :=
  foldr (fun line acc => NL +:+ line +:+ acc) "" lines.

(** The key of the chunk with index [i] of a filing. *)
Definition key_of (document : SECDocument) (i : nat) : string :=
  filing_id document +:+ "_" +:+ pretty (Z.of_nat i).

(** Relative to the store [σ0] the reconciler was called with: *)

(** Every record is as it was, or is the annotated version of what it was. *)
Definition touched_only_by_annotation (float_accepts : string -> bool)
    (σ0 σ : store) : Prop :=
  forall r,
    σ !! r = σ0 !! r
    \/ exists m m', σ0 !! r = Some m
         /\ m !! "has_metrics" = Some (MStr "true")
         /\ annotated float_accepts m m' /\ σ !! r = Some m'.

(** The record [r], if flagged, carries its summary. *)
Definition annotation_done (float_accepts : string -> bool)
    (σ0 σ : store) (r : ref) : Prop :=
  forall m, σ0 !! r = Some m -> m !! "has_metrics" = Some (MStr "true") ->
    exists m', annotated float_accepts m m' /\ σ !! r = Some m'.

(** ** Further definitions used to state properties *)

(** The pattern without its optional leading part: [(p)?r] gives [r]. *)
Definition drop_optional_prefix (r : regex) : regex :=
  match r with
  | Cat (Alt _ Eps) r' => r'
  | _ => r
  end.

(** The table of [section_patterns] with every "Item N" prefix removed. *)
Definition phrase_patterns : list (string * regex) :=
  map (fun sp => (fst sp, drop_optional_prefix (snd sp))) section_patterns.

(** The six values [_identify_section] can return. *)
Definition section_tags : list string :=
  ["risk_factors"; "mda"; "business"; "financial_statements"; "market_risk"; "other"].

(** A span opened by a header line [h] and continued by the lines [body]. *)
Definition header_span (sp : string * string) : Prop :=
  exists h body,
    is_header h = true
    /\ Forall (fun line => is_header line = false) body
    /\ sp = (str_join NL (h :: body), _identify_section h).

(** The span of the lines that precede the first header. *)
Definition leading_span (sp : string * string) : Prop :=
  exists body,
    body <> []
    /\ Forall (fun line => is_header line = false) body
    /\ sp = (appended body, "other").

(** [c in s] for a character. *)
Definition contains_char (c : ascii) (s : string) : bool :=
  existsb (Ascii.eqb c) (list_ascii_of_string s).

(** The counting of [count_floats] on the stored string itself. *)
Definition count_floats_of (float_accepts : string -> bool) (s : string)
    : option nat :=
  let parts := List.filter str_nonempty (str_split "," s) in
  if forallb float_accepts parts then Some (length parts) else None.

(** The record behind [r] is live and its metric fields can be parsed back. *)
Definition record_parses (float_accepts : string -> bool) (σ : store) (r : ref)
    : Prop :=
  exists m, σ !! r = Some m /\ meta_parses float_accepts m.

(** The record behind [r] is live and, if flagged, already carries the
    summary of its two counts. *)
Definition record_settled (float_accepts : string -> bool) (σ : store) (r : ref)
    : Prop :=
  exists m, σ !! r = Some m
    /\ (m !! "has_metrics" = Some (MStr "true") ->
        exists n1 n2,
          count_floats float_accepts m "currency_amounts" = Some n1
          /\ count_floats float_accepts m "percentages" = Some n2
          /\ m !! "metrics_summary" = Some (MStr (summary_text n1 n2))).

(** ** Analyzer: [SECAnalyzer.analyze_topic] and [_organize_results]
       ([test_system.py]) *)

Global Instance mval_countable : Countable mval.
Proof.
  refine (inj_countable'
            (fun v => match v with MStr s => inl s | MInt z => inr z end)
            (fun x => match x with inl s => MStr s | inr z => MInt z end) _).
  by intros [].
Defined.

(** One entry of a company's list: the dictionary with the keys [content],
    [filing_type], [filing_date], [section] and [metrics_summary]. *)
Record topic_entry := TopicEntry {
  content : string;
  entry_filing_type : mval;
  entry_filing_date : mval;
  entry_section : mval;
  entry_metrics_summary : string
}.

Definition metrics_found (n_currency n_percentages : nat) : string :=
  NL +:+ "Metrics found: " +:+ pretty n_currency +:+ " currency amounts, "
  +:+ pretty n_percentages +:+ " percentages".

(** The filter [analyze_topic] builds: [if companies:] and
    [if filing_types:] hold for a list that is given and not empty. *)
Definition in_filter (key : string) (values : option (list string))
    : list (string * pyval) :=
  match values with
  | Some ((_ :: _) as l) => [(key, PDict [("$in", PList (map PStr l))])]
  | _ => []
  end.

Definition topic_filter (companies filing_types : option (list string))
    : list (string * pyval) :=
  in_filter "ticker" companies ++ in_filter "filing_type" filing_types.

Section Analyzer.
Variable float_accepts : string -> bool.

(** The body of the loop of [_organize_results]: the company and the entry
    for one result; a missing [ticker], [filing_type] or [filing_date] is a
    KeyError. *)
Definition organize_entry (doc : string) (m : gmap string mval)
    : option (mval * topic_entry) :=
  company ← m !! "ticker";
  ftype ← m !! "filing_type";
  fdate ← m !! "filing_date";
  let section := default (MStr "main") (m !! "section") in
  metrics_summary ←
    (if decide (m !! "has_metrics" = Some (MStr "true")) then
       n_currency ← count_floats float_accepts m "currency_amounts";
       n_percentages ← count_floats float_accepts m "percentages";
       Some (if (0 <? n_currency) || (0 <? n_percentages)
             then metrics_found n_currency n_percentages else "")
     else Some "");
  Some (company, TopicEntry doc ftype fdate section metrics_summary).

(** The loop over [zip(documents[0], metadatas[0])];
    [organized[company].append(entry)] on a [defaultdict(list)].  The order
    in which the resulting dictionary lists its companies is not modelled. *)
Fixpoint organize_loop (σ : store) (items : list (string * ref))
    (organized : gmap mval (list topic_entry))
    : option (gmap mval (list topic_entry)) :=
  match items with
  | [] => Some organized
  | (doc, r) :: items' =>
      m ← σ !! r;
      '(company, entry) ← organize_entry doc m;
      organize_loop σ items'
        (<[company := default [] (organized !! company) ++ [entry]]> organized)
  end.

Definition _organize_results (σ : store) (results : envelope)
    : option (gmap mval (list topic_entry)) :=
  match res_documents results with
  | [] => Some ∅
  | [] :: _ => Some ∅
  | docs0 :: _ =>
      metas0 ← head (res_metadatas results);
      organize_loop σ (zip docs0 metas0) ∅
  end.

Variable collection_query :
  list string -> Z -> option pyval -> option (envelope * store).

Definition analyze_topic (topic : string)
    (companies filing_types : option (list string)) (limit : Z)
    : option (gmap mval (list topic_entry)) :=
  let where_ := topic_filter companies filing_types in
  '(results, σ) ← search float_accepts collection_query topic (Some where_) limit;
  _organize_results σ results.
End Analyzer.

(** The entry of one pair, read from the store. *)
Definition organize_pair (float_accepts : string -> bool) (σ : store)
    (p : string * ref) : option (mval * topic_entry) :=
  m ← σ !! p.2; organize_entry float_accepts p.1 m.

(** ** What cleaning does to a text: auxiliary functions *)

Fixpoint str_map (f : ascii -> ascii) (s : string) : string :=
  match s with
  | EmptyString => ""
  | String a s' => String (f a) (str_map f s')
  end.

Fixpoint str_filter (p : ascii -> bool) (s : string) : string :=
  match s with
  | EmptyString => ""
  | String a s' => if p a then String a (str_filter p s') else str_filter p s'
  end.

Fixpoint str_forallb (p : ascii -> bool) (s : string) : bool :=
  match s with
  | EmptyString => true
  | String a s' => p a && str_forallb p s'
  end.

(** A character that cleaning keeps as it is: allowed and not white space. *)
Definition kept_char (c : ascii) : bool := negb (disallowed c) && negb (is_space c).

(** A word of a cleaned text: not empty, made of kept characters. *)
Definition clean_word (w : string) : Prop :=
  w <> "" /\ str_forallb kept_char w = true.

(** A disallowed character becomes a space. *)
Definition blank (c : ascii) : ascii := if disallowed c then " "%char else c.

(** Every run of white space becomes one space. *)
Fixpoint collapse (s : string) : string :=
  match s with
  | EmptyString => ""
  | String a s' =>
      if is_space a then
        match s' with
        | String b _ => if is_space b then collapse s' else String " " (collapse s')
        | EmptyString => " "
        end
      else String a (collapse s')
  end.

Definition str_rstrip (s : string) : string :=
  String.rev (str_lstrip (String.rev s)).

(** The words of [s] when [s] continues a word: the first element is the
    rest of that word. *)
Definition words_cont (s : string) : list string := str_words_go (Some "") s.

(** A pattern whose character classes do not tell a capital letter from
    its small letter; checked on the 256 characters. *)
Fixpoint case_blind (r : regex) : bool :=
  match r with
  | Eps | Lit _ => true
  | Cls p =>
      forallb (fun n => Bool.eqb (p (lower (ascii_of_nat n))) (p (ascii_of_nat n)))
              (List.seq 0 256)
  | Cat r1 r2 | Alt r1 r2 => case_blind r1 && case_blind r2
  | Star r' | Grp _ r' => case_blind r'
  end.

(** * Properties *)

(** ** Strings *)

Lemma str_app_cons c s t : String c s +:+ t = String c (s +:+ t).
Proof. reflexivity. Qed.

Lemma str_app_nil_l s : "" +:+ s = s.
Proof. reflexivity. Qed.

Lemma str_app_nil_r s : s +:+ "" = s.
Proof. induction s as [|c s IH]; [done|]. by rewrite str_app_cons, IH. Qed.

Lemma str_app_assoc s t u : (s +:+ t) +:+ u = s +:+ t +:+ u.
Proof. induction s as [|c s IH]; [done|]. by rewrite !str_app_cons, IH. Qed.

Lemma str_length_app s t : String.length (s +:+ t) = String.length s + String.length t.
Proof. induction s as [|c s IH]; [done|]. rewrite str_app_cons. simpl. by rewrite IH. Qed.

Lemma length_pos_nonempty s : s <> "" -> 0 < String.length s.
Proof. destruct s; [done|]. simpl. lia. Qed.

(** ** The matcher against the language of a pattern *)

Module ReFacts.
Section Run.
Context {A : Type}.
Variable ic : bool.

Lemma star_loop_sound r (body : string -> caps -> (string -> caps -> option A) -> option A) :
  (forall s g k x, body s g k = Some x ->
     exists s1 s2 g', s = s1 +:+ s2 /\ matches ic r s1 /\ k s2 g' = Some x) ->
  forall k n s g x, star_loop body k n s g = Some x ->
    exists s1 s2 g', s = s1 +:+ s2 /\ matches ic (Star r) s1 /\ k s2 g' = Some x.
Proof.
  intros Hbody k n. induction n as [|n IH]; intros s g x H; simpl in H.
  - exists "", s, g. split; [done|]. split; [constructor|done].
  - destruct (body s g _) as [y|] eqn:Hb.
    + inversion H; subst y; clear H.
      apply Hbody in Hb as (a & b & g' & -> & Ha & Hk).
      destruct (String.length b <? String.length (a +:+ b)) eqn:Hlt; [|done].
      apply Nat.ltb_lt in Hlt. rewrite str_length_app in Hlt.
      apply IH in Hk as (b1 & b2 & g'' & -> & Hb1 & Hk).
      exists (a +:+ b1), b2, g''. split; [by rewrite str_app_assoc|].
      split; [|done]. constructor; [|done..].
      intros ->. simpl in Hlt. lia.
    + exists "", s, g. split; [done|]. split; [constructor|done].
Qed.

(** Soundness: a successful run has consumed a match of the pattern and
    handed the rest to the continuation. *)
Lemma run_sound r : forall s g (k : string -> caps -> option A) x,
  run ic r s g k = Some x ->
  exists s1 s2 g', s = s1 +:+ s2 /\ matches ic r s1 /\ k s2 g' = Some x.
Proof.
  induction r as [|c|p|r1 IH1 r2 IH2|r1 IH1 r2 IH2|r IH|n r IH];
    intros s g k x H; simpl in H.
  - exists "", s, g. split; [done|]. split; [constructor|done].
  - destruct s as [|a s]; [done|].
    destruct (lit_match ic c a) eqn:Hc; [|done].
    exists (String a ""), s, g. split; [done|]. split; [by constructor|done].
  - destruct s as [|a s]; [done|].
    destruct (p a) eqn:Hc; [|done].
    exists (String a ""), s, g. split; [done|]. split; [by constructor|done].
  - apply IH1 in H as (a & b & g1 & -> & Ha & H).
    apply IH2 in H as (b1 & b2 & g2 & -> & Hb & H).
    exists (a +:+ b1), b2, g2. split; [by rewrite str_app_assoc|].
    split; [by constructor|done].
  - destruct (run ic r1 s g k) as [y|] eqn:H1.
    + inversion H; subst y. apply IH1 in H1 as (a & b & g1 & -> & Ha & Hk).
      exists a, b, g1. split; [done|]. split; [by apply M_alt_l|done].
    + apply IH2 in H as (a & b & g1 & -> & Ha & Hk).
      exists a, b, g1. split; [done|]. split; [by apply M_alt_r|done].
  - eapply star_loop_sound; [|exact H]. apply IH.
  - apply IH in H as (a & b & g1 & -> & Ha & Hk).
    eexists a, b, _. split; [done|]. split; [by constructor|exact Hk].
Qed.

Lemma star_loop_complete r (body : string -> caps -> (string -> caps -> option A) -> option A) :
  (forall s1 s2 g k, matches ic r s1 -> (forall g', is_Some (k s2 g')) ->
     is_Some (body (s1 +:+ s2) g k)) ->
  forall k s1, matches ic (Star r) s1 ->
  forall n s2 g, String.length (s1 +:+ s2) <= n ->
    (forall g', is_Some (k s2 g')) ->
    is_Some (star_loop body k n (s1 +:+ s2) g).
Proof.
  intros Hbody k s1 Hm.
  remember (Star r) as sr eqn:Hsr.
  induction Hm as [| | | | | | r0 | r0 a b Hne Ha _ Hb IHb |]; try discriminate.
  - intros n s2 g _ Hk. rewrite str_app_nil_l. destruct n as [|n]; simpl; [done|].
    by destruct (body s2 g _).
  - injection Hsr as ->. intros n s2 g Hlen Hk.
    rewrite str_app_assoc in *. pose proof (length_pos_nonempty _ Hne) as Hpos.
    rewrite str_length_app in Hlen.
    destruct n as [|n]; [lia|]. simpl.
    assert (is_Some (body (a +:+ b +:+ s2) g (fun s' g' =>
              if String.length s' <? String.length (a +:+ b +:+ s2)
              then star_loop body k n s' g' else None))) as [y ->]; [|done].
    apply Hbody; [done|]. intros g'.
    assert ((String.length (b +:+ s2) <? String.length (a +:+ b +:+ s2)) = true) as ->.
    { apply Nat.ltb_lt. rewrite (str_length_app a). lia. }
    apply IHb; [done| lia |done].
Qed.

(** Completeness: if a prefix of the subject is a match and the
    continuation accepts what follows it, the run succeeds (possibly on
    another, earlier tried match). *)
Lemma run_complete r : forall s1 s2 g (k : string -> caps -> option A),
  matches ic r s1 -> (forall g', is_Some (k s2 g')) ->
  is_Some (run ic r (s1 +:+ s2) g k).
Proof.
  induction r as [|c|p|r1 IH1 r2 IH2|r1 IH1 r2 IH2|r IH|n r IH];
    intros s1 s2 g k Hm Hk; inversion Hm; subst; simpl.
  - apply Hk.
  - rewrite str_app_nil_l.
    match goal with H : lit_match _ _ _ = true |- _ => rewrite H end. apply Hk.
  - rewrite str_app_nil_l.
    match goal with H : p _ = true |- _ => rewrite H end. apply Hk.
  - rewrite str_app_assoc. apply IH1; [done|]. intros g'. by apply IH2.
  - destruct (IH1 s1 s2 g k) as [y ->]; done.
  - destruct (run ic r1 (s1 +:+ s2) g k); [done|]. by apply IH2.
  - rewrite str_app_nil_l. destruct (String.length s2); simpl; [apply Hk|].
    destruct (run ic r s2 g _); [done|apply Hk].
  - eapply star_loop_complete; [apply IH| |done|done].
    by constructor.
  - apply IH; [done|]. intros g'. apply Hk.
Qed.
End Run.

Lemma match_at_sound ic r s rest g :
  match_at ic r s = Some (rest, g) -> exists m, s = m +:+ rest /\ matches ic r m.
Proof.
  intros H. apply run_sound in H as (a & b & g' & -> & Ha & Hk).
  inversion Hk; subst. eauto.
Qed.

Lemma match_at_complete ic r m rest :
  matches ic r m -> is_Some (match_at ic r (m +:+ rest)).
Proof. intros H. apply run_complete; [done|]. by intros g'. Qed.

Lemma matches_by_run ic r s g : match_at ic r s = Some ("", g) -> matches ic r s.
Proof.
  intros (m & -> & Hm)%match_at_sound. by rewrite str_app_nil_r.
Qed.

(** [re.search] finds a match exactly when the subject contains one. *)
Lemma search_occurs ic r s : Re.search ic r s = true <-> occurs ic r s.
Proof.
  split.
  - induction s as [|c s IH]; simpl.
    + destruct (match_at ic r "") as [[rest g]|] eqn:H; [|done].
      intros _. apply match_at_sound in H as (m & Hs & Hm).
      exists "", m, rest. by rewrite str_app_nil_l.
    + destruct (match_at ic r (String c s)) as [[rest g]|] eqn:H.
      * intros _. apply match_at_sound in H as (m & Hs & Hm).
        exists "", m, rest. by rewrite str_app_nil_l.
      * intros (pre & mid & post & -> & Hm)%IH.
        exists (String c pre), mid, post. by rewrite str_app_cons.
  - intros (pre & mid & post & -> & Hm).
    induction pre as [|c pre IH].
    + rewrite str_app_nil_l.
      destruct (match_at_complete ic r mid post Hm) as [y Hy].
      destruct (mid +:+ post); simpl; by rewrite Hy.
    + rewrite str_app_cons. simpl. by destruct (match_at ic r _).
Qed.

(** Matching a pattern without group leaves the captured groups as they
    are, and a group captures exactly what its body matched. *)
Section Caps.
Context {A : Type}.
Variable ic : bool.

Lemma star_loop_keeps r (body : string -> caps -> (string -> caps -> option A) -> option A) :
  (forall s g k x, body s g k = Some x ->
     exists s1 s2, s = s1 +:+ s2 /\ matches ic r s1 /\ k s2 g = Some x) ->
  forall k n s g x, star_loop body k n s g = Some x ->
    exists s1 s2, s = s1 +:+ s2 /\ matches ic (Star r) s1 /\ k s2 g = Some x.
Proof.
  intros Hbody k n. induction n as [|n IH]; intros s g x H; simpl in H.
  - exists "", s. split; [done|]. split; [constructor|done].
  - destruct (body s g _) as [y|] eqn:Hb.
    + inversion H; subst y; clear H.
      apply Hbody in Hb as (a & b & -> & Ha & Hk).
      destruct (String.length b <? String.length (a +:+ b)) eqn:Hlt; [|done].
      apply Nat.ltb_lt in Hlt. rewrite str_length_app in Hlt.
      apply IH in Hk as (b1 & b2 & -> & Hb1 & Hk).
      exists (a +:+ b1), b2. split; [by rewrite str_app_assoc|].
      split; [|done]. constructor; [|done..].
      intros ->. simpl in Hlt. lia.
    + exists "", s. split; [done|]. split; [constructor|done].
Qed.

Lemma run_keeps r : no_groups r = true ->
  forall s g (k : string -> caps -> option A) x,
  run ic r s g k = Some x ->
  exists s1 s2, s = s1 +:+ s2 /\ matches ic r s1 /\ k s2 g = Some x.
Proof.
  induction r as [|c|p|r1 IH1 r2 IH2|r1 IH1 r2 IH2|r IH|n r IH];
    intros Hng s g k x H; simpl in H, Hng.
  - exists "", s. split; [done|]. split; [constructor|done].
  - destruct s as [|a s]; [done|].
    destruct (lit_match ic c a) eqn:Hc; [|done].
    exists (String a ""), s. split; [done|]. split; [by constructor|done].
  - destruct s as [|a s]; [done|].
    destruct (p a) eqn:Hc; [|done].
    exists (String a ""), s. split; [done|]. split; [by constructor|done].
  - apply andb_true_iff in Hng as [Hn1 Hn2].
    apply IH1 in H as (a & b & -> & Ha & H); [|done].
    apply IH2 in H as (b1 & b2 & -> & Hb & H); [|done].
    exists (a +:+ b1), b2. split; [by rewrite str_app_assoc|].
    split; [by constructor|done].
  - apply andb_true_iff in Hng as [Hn1 Hn2].
    destruct (run ic r1 s g k) as [y|] eqn:H1.
    + inversion H; subst y. apply IH1 in H1 as (a & b & -> & Ha & Hk); [|done].
      exists a, b. split; [done|]. split; [by apply M_alt_l|done].
    + apply IH2 in H as (a & b & -> & Ha & Hk); [|done].
      exists a, b. split; [done|]. split; [by apply M_alt_r|done].
  - eapply star_loop_keeps; [|exact H]. by apply IH.
  - done.
Qed.

Lemma str_take_app s1 s2 :
  str_take (String.length (s1 +:+ s2) - String.length s2) (s1 +:+ s2) = s1.
Proof.
  rewrite str_length_app.
  replace (String.length s1 + String.length s2 - String.length s2)
    with (String.length s1) by lia.
  induction s1 as [|c s1 IH].
  - rewrite str_app_nil_l. by destruct s2.
  - rewrite str_app_cons. simpl. unfold str_take; fold str_take. by rewrite IH.
Qed.

Lemma run_group n r : no_groups r = true ->
  forall s g (k : string -> caps -> option A) x,
  run ic (Grp n r) s g k = Some x ->
  exists s1 s2, s = s1 +:+ s2 /\ matches ic r s1 /\ k s2 ((n, s1) :: g) = Some x.
Proof.
  intros Hng s g k x H. simpl in H.
  apply run_keeps in H as (s1 & s2 & -> & Hm & Hk); [|done].
  rewrite str_take_app in Hk. eauto.
Qed.
End Caps.

Section Chain.
Context {A : Type}.
Variable ic : bool.

Lemma run_cat_keeps r1 r2 s g (k : string -> caps -> option A) x :
  no_groups r1 = true ->
  run ic (Cat r1 r2) s g k = Some x ->
  exists s1 s2, s = s1 +:+ s2 /\ matches ic r1 s1 /\ run ic r2 s2 g k = Some x.
Proof. intros Hng H. simpl in H. by apply run_keeps in H. Qed.

Lemma run_cat_group n r1 r2 s g (k : string -> caps -> option A) x :
  no_groups r1 = true ->
  run ic (Cat (Grp n r1) r2) s g k = Some x ->
  exists s1 s2, s = s1 +:+ s2 /\ matches ic r1 s1
                /\ run ic r2 s2 ((n, s1) :: g) k = Some x.
Proof.
  intros Hng H. change (run ic (Cat (Grp n r1) r2) s g k)
    with (run ic (Grp n r1) s g (fun s' g' => run ic r2 s' g' k)) in H.
  by apply run_group in H.
Qed.

Lemma run_cat_opt_group n r1 r2 s g (k : string -> caps -> option A) x :
  no_groups r1 = true ->
  run ic (Cat (Opt (Grp n r1)) r2) s g k = Some x ->
  (exists s1 s2, s = s1 +:+ s2 /\ matches ic r1 s1
                 /\ run ic r2 s2 ((n, s1) :: g) k = Some x)
  \/ run ic r2 s g k = Some x.
Proof.
  intros Hng H.
  change (run ic (Cat (Opt (Grp n r1)) r2) s g k)
    with (match run ic (Grp n r1) s g (fun s' g' => run ic r2 s' g' k) with
          | Some y => Some y
          | None => run ic r2 s g k
          end) in H.
  destruct (run ic (Grp n r1) s g _) as [y|] eqn:Hg; [|by right].
  injection H as ->. left. by apply run_group in Hg.
Qed.
End Chain.

Lemma finditer_from_matches ic r n : forall s g,
  g ∈ finditer_from n ic r s ->
  exists s' rest, match_at ic r s' = Some (rest, g).
Proof.
  induction n as [|n IH]; intros s g; simpl; [by intros ?%elem_of_nil|].
  assert (g ∈ match s with "" => [] | String _ s' => finditer_from n ic r s' end ->
          exists s' rest, match_at ic r s' = Some (rest, g)) as Hskip.
  { destruct s; [by intros ?%elem_of_nil|apply IH]. }
  destruct (match_at ic r s) as [[rest g0]|] eqn:Hm; [|done].
  intros [->|Hin]%elem_of_cons; [eauto|].
  destruct (_ <? _); [by eapply IH|by apply Hskip].
Qed.


(** The fuel of [finditer] and [sub] is only a bound on the recursion: any
    amount above the length of the subject gives the same result. *)
Lemma finditer_from_fuel ic r : forall n m s,
  String.length s < n -> String.length s < m ->
  finditer_from n ic r s = finditer_from m ic r s.
Proof.
  induction n as [|n IH]; intros m s Hn Hm; [lia|].
  destruct m as [|m]; [lia|]. simpl.
  assert (forall s', String.length s' < String.length s ->
            finditer_from n ic r s' = finditer_from m ic r s') as Hrec.
  { intros s' Hs'. apply IH; lia. }
  destruct (match_at ic r s) as [[s' g]|].
  - f_equal. destruct (String.length s' <? String.length s) eqn:Hlt.
    + apply Hrec. by apply Nat.ltb_lt.
    + destruct s as [|c s0]; [done|]. apply Hrec. simpl. lia.
  - destruct s as [|c s0]; [done|]. apply Hrec. simpl. lia.
Qed.

Lemma sub_from_fuel ic r repl : forall n m s,
  String.length s < n -> String.length s < m ->
  sub_from n ic r repl s = sub_from m ic r repl s.
Proof.
  induction n as [|n IH]; intros m s Hn Hm; [lia|].
  destruct m as [|m]; [lia|]. simpl.
  assert (forall s', String.length s' < String.length s ->
            sub_from n ic r repl s' = sub_from m ic r repl s') as Hrec.
  { intros s' Hs'. apply IH; lia. }
  destruct (match_at ic r s) as [[s' g]|].
  - destruct (String.length s' <? String.length s) eqn:Hlt.
    + f_equal. apply Hrec. by apply Nat.ltb_lt.
    + destruct s as [|c s0]; [done|]. f_equal. apply Hrec. simpl. lia.
  - destruct s as [|c s0]; [done|]. f_equal. apply Hrec. simpl. lia.
Qed.
End ReFacts.

(** ** Section Classifier *)

Lemma find_first {A} (f : A -> bool) (l : list A) (i : nat) (x : A) :
  l !! i = Some x -> f x = true ->
  (forall j y, j < i -> l !! j = Some y -> f y = false) ->
  List.find f l = Some x.
Proof.
  revert i. induction l as [|a l IH]; intros [|i] Hi Hx Hlt; simplify_eq/=.
  - by rewrite Hx.
  - rewrite (Hlt 0 a); [|lia|done].
    apply (IH i); [done..|]. intros j y Hj Hy. apply (Hlt (S j)); [lia|done].
Qed.

Lemma is_header_nonempty line : is_header line = true -> line <> "".
Proof. intros H ->. by vm_compute in H. Qed.

(** C9 as stated fails: this line contains the phrase of the section
    [financial_statements], in lower case and in the middle of a sentence,
    and the classifier answers [business], whose pattern comes earlier and
    also occurs in the line. *)
Lemma identify_section_contained_phrase_loses :
  let line := "Our business has financial statements" in
  (exists r, section_patterns !! 3 = Some ("financial_statements", r)
             /\ occurs true r line)
  /\ _identify_section line = "business".
Proof.
  split; [|reflexivity].
  eexists. split; [reflexivity|]. by apply ReFacts.search_occurs.
Qed.

(** C9 (amended): patterns are searched anywhere in the line, ignoring
    case; the classifier returns the tag of a section whose phrase the line
    contains provided no section earlier in the priority order has its
    phrase in the line as well. *)
Theorem identify_section_first_occurring (line : string) (i : nat)
    (t : string) (r : regex) :
  section_patterns !! i = Some (t, r) ->
  occurs true r line ->
  (forall j t' r', j < i -> section_patterns !! j = Some (t', r') ->
                   ~ occurs true r' line) ->
  _identify_section line = t.
Proof.
  intros Hi Hocc Hprio. unfold _identify_section.
  rewrite (find_first _ _ i (t, r)); [done|done|..].
  - by apply ReFacts.search_occurs.
  - intros j [t' r'] Hj Hy. simpl.
    destruct (Re.search true r' line) eqn:Hs; [|done].
    apply ReFacts.search_occurs in Hs. by destruct (Hprio j t' r').
Qed.

Lemma identify_section_first_occurring_witness :
  _identify_section "as shown in the FINANCIAL  statements attached"
  = "financial_statements".
Proof.
  eapply (identify_section_first_occurring _ 3); [reflexivity| |].
  - by apply ReFacts.search_occurs.
  - intros j t' r' Hj Hy Hocc. apply ReFacts.search_occurs in Hocc.
    destruct j as [|[|[|j]]]; [..|lia]; by simplify_eq/=.
Defined.

(** The example of the claim: the words "Risk Factors" (in any case, with
    any white space between them) anywhere in a line make it a
    [risk_factors] line, whatever surrounds them. *)
Lemma identify_section_risk_factors_anywhere pre mid post :
  matches true (seq [lit "Risk"; Star ws; lit "Factors"]) mid ->
  _identify_section (pre +:+ mid +:+ post) = "risk_factors".
Proof.
  intros Hm. unfold _identify_section.
  rewrite (find_first _ section_patterns 0 _ eq_refl); [done| |intros; lia].
  apply ReFacts.search_occurs. exists pre, mid, post. split; [done|].
  rewrite <-(str_app_nil_l mid). constructor; [|done].
  apply M_alt_r. constructor.
Qed.

Lemma identify_section_risk_factors_in_prose pre post :
  _identify_section (pre +:+ "the risk factors" +:+ post) = "risk_factors".
Proof.
  change (pre +:+ "the risk factors" +:+ post)
    with (pre +:+ "the " +:+ "risk factors" +:+ post).
  rewrite <-(str_app_assoc pre "the ").
  apply identify_section_risk_factors_anywhere.
  by eapply ReFacts.matches_by_run.
Qed.

(** ** Segmenter *)


Lemma str_split_nonempty c s : str_split c s <> [].
Proof.
  destruct s as [|a s]; simpl; [done|].
  destruct (Ascii.eqb a c); [done|]. by destruct (str_split c s).
Qed.

Lemma appended_split text : appended (str_split nl text) = NL +:+ text.
Proof.
  induction text as [|a text IH]; simpl; [done|].
  destruct (Ascii.eqb a nl) eqn:Ha.
  - apply Ascii.eqb_eq in Ha as ->. simpl. by rewrite IH.
  - destruct (str_split nl text) as [|l ls]; simpl in *.
    + discriminate IH.
    + unfold NL in *. rewrite !str_app_cons, !str_app_nil_l in *.
      by injection IH as ->.
Qed.

Lemma fold_seg_step_other lines st :
  Forall (fun line => is_header line = false) lines ->
  fold_left seg_step lines st
  = SegState (sections st) (current_text st +:+ appended lines) (current_type st).
Proof.
  intros H. revert st. induction H as [|line lines Hl _ IH]; intros st; simpl.
  - rewrite str_app_nil_r. by destruct st.
  - rewrite IH. unfold seg_step. unfold is_header in Hl. rewrite Hl. simpl.
    by rewrite !str_app_assoc.
Qed.

Lemma str_nonempty_app_l a b : str_nonempty a = true -> str_nonempty (a +:+ b) = true.
Proof. by destruct a. Qed.

Lemma str_nonempty_app_r a b : str_nonempty b = true -> str_nonempty (a +:+ b) = true.
Proof. destruct a; [by rewrite str_app_nil_l|done]. Qed.

Lemma str_nonempty_true s : s <> "" -> str_nonempty s = true.
Proof. by destruct s. Qed.

Lemma str_join_appended h body : str_join NL (h :: body) = h +:+ appended body.
Proof.
  revert h. induction body as [|b body IH]; intros h.
  - simpl. by rewrite str_app_nil_r.
  - change (str_join NL (h :: b :: body)) with (h +:+ NL +:+ str_join NL (b :: body)).
    by rewrite IH.
Qed.

Lemma seg_step_header st line :
  is_header line = true ->
  seg_step st line = SegState (emit st) line (_identify_section line).
Proof. unfold is_header, seg_step. by intros ->. Qed.

Lemma seg_step_other st line :
  is_header line = false ->
  seg_step st line
  = SegState (sections st) (current_text st +:+ NL +:+ line) (current_type st).
Proof.
  unfold is_header, seg_step. intros H.
  by destruct (negb (_identify_section line =? "other")%string).
Qed.

(** Once the accumulator is non-empty, every header line adds one span. *)
Lemma length_spans_from lines : forall st,
  str_nonempty (current_text st) = true ->
  length (emit (fold_left seg_step lines st))
  = length (sections st) + 1 + length (List.filter is_header lines).
Proof.
  induction lines as [|line lines IH]; intros st Hne.
  - simpl. unfold emit. rewrite Hne, length_app. simpl. lia.
  - simpl fold_left. simpl List.filter. destruct (is_header line) eqn:Hh.
    + rewrite (seg_step_header _ _ Hh), IH.
      * simpl. unfold emit. rewrite Hne, length_app. simpl. lia.
      * simpl. by apply str_nonempty_true, is_header_nonempty.
    + rewrite (seg_step_other _ _ Hh), IH; [done|].
      simpl. by apply str_nonempty_app_l.
Qed.

(** One span per header line, and one more when the first line is no
    header: for every text. *)
Lemma length_split_into_sections text :
  length (_split_into_sections text)
  = length (List.filter is_header (str_split nl text))
    + (if is_header (hd "" (str_split nl text)) then 0 else 1).
Proof.
  unfold _split_into_sections, spans_of_lines.
  pose proof (str_split_nonempty nl text) as Hne.
  destruct (str_split nl text) as [|l ls]; [done|].
  simpl fold_left. simpl hd. simpl List.filter.
  destruct (is_header l) eqn:Hl.
  - rewrite (seg_step_header _ _ Hl), length_spans_from.
    + simpl. lia.
    + simpl. by apply str_nonempty_true, is_header_nonempty.
  - rewrite (seg_step_other _ _ Hl), length_spans_from.
    + simpl. lia.
    + reflexivity.
Qed.

(** C2 (behaviour of the code): when no line is a header the segmenter
    returns exactly one span, tagged [other]; its text is the input preceded
    by one newline character, which the first iteration adds to the empty
    accumulator.  The text therefore never equals the input. *)
Theorem split_into_sections_no_header (text : string) :
  (forall line, line ∈ str_split nl text -> _identify_section line = "other") ->
  _split_into_sections text = [(NL +:+ text, "other")]
  /\ NL +:+ text <> text.
Proof.
  intros H. split.
  - unfold _split_into_sections, spans_of_lines.
    rewrite fold_seg_step_other.
    + rewrite appended_split. reflexivity.
    + apply Forall_forall. intros line Hl. unfold is_header.
      by rewrite (H line Hl).
  - intros Heq. apply (f_equal String.length) in Heq.
    rewrite str_length_app in Heq. simpl in Heq. lia.
Qed.

Lemma split_into_sections_no_header_witness :
  let text := "Annual report" +:+ NL +:+ "Revenue grew." in
  _split_into_sections text = [(NL +:+ text, "other")] /\ NL +:+ text <> text.
Proof.
  apply split_into_sections_no_header.
  intros line Hl. vm_compute in Hl.
  apply elem_of_cons in Hl as [->|Hl]; [reflexivity|].
  apply elem_of_cons in Hl as [->|Hl]; [reflexivity|].
  by apply elem_of_nil in Hl.
Defined.

(** C4 as stated fails in both directions.  With the span of a
    [risk_factors] header being accumulated, a body line (tag [other],
    which differs) is appended and opens no span, and a second
    [risk_factors] header (same tag) opens a new span instead of being
    appended; on both lines the step of the code differs from the step the
    claim describes, and so do the spans of the two-line texts. *)
Lemma seg_step_differs_from_tag_change :
  let st := SegState [] "Item 1A. Risk Factors" "risk_factors" in
  (_identify_section "We face risks." <> current_type st
   /\ seg_step st "We face risks."
      = SegState [] ("Item 1A. Risk Factors" +:+ NL +:+ "We face risks.") "risk_factors"
   /\ seg_step st "We face risks." <> spec_seg_step st "We face risks."
   /\ _split_into_sections ("Item 1A. Risk Factors" +:+ NL +:+ "We face risks.")
      = [("Item 1A. Risk Factors" +:+ NL +:+ "We face risks.", "risk_factors")]
   /\ spec_split_into_sections ("Item 1A. Risk Factors" +:+ NL +:+ "We face risks.")
      = [("Item 1A. Risk Factors", "risk_factors"); ("We face risks.", "other")])
  /\
  (_identify_section "More Risk Factors" = current_type st
   /\ seg_step st "More Risk Factors"
      = SegState [("Item 1A. Risk Factors", "risk_factors")]
                 "More Risk Factors" "risk_factors"
   /\ seg_step st "More Risk Factors" <> spec_seg_step st "More Risk Factors"
   /\ _split_into_sections ("Item 1A. Risk Factors" +:+ NL +:+ "More Risk Factors")
      = [("Item 1A. Risk Factors", "risk_factors");
         ("More Risk Factors", "risk_factors")]
   /\ spec_split_into_sections ("Item 1A. Risk Factors" +:+ NL +:+ "More Risk Factors")
      = [("Item 1A. Risk Factors" +:+ NL +:+ "More Risk Factors", "risk_factors")]).
Proof. by vm_compute. Qed.

(** C4 (amended): the spans follow the header lines, not the changes of
    tag.  A new span is started exactly at the lines whose tag is not
    [other], also when that tag is the tag of the span being accumulated:
    there is one span per header line, and one more when the first line is
    no header.  The span of a header line is seeded with that line, and the
    lines tagged [other] that follow are appended to it, whatever its tag. *)
Theorem split_into_sections_header_driven (text : string)
    (before : list string) (h : string) (body : list string) :
  str_split nl text = before ++ h :: body ->
  is_header h = true ->
  Forall (fun line => is_header line = false) body ->
  length (_split_into_sections text)
  = length (List.filter is_header (str_split nl text))
    + (if is_header (hd "" (str_split nl text)) then 0 else 1)
  /\ _split_into_sections text
     = spans_of_lines before ++ [(str_join NL (h :: body), _identify_section h)].
Proof.
  intros Hsplit Hh Hbody. split; [apply length_split_into_sections|].
  unfold _split_into_sections, spans_of_lines. rewrite Hsplit.
  rewrite fold_left_app. simpl fold_left.
  rewrite (seg_step_header _ _ Hh), fold_seg_step_other by done.
  rewrite str_join_appended.
  unfold emit at 1. cbn [current_text sections current_type].
  by rewrite str_nonempty_app_l by (by apply str_nonempty_true, is_header_nonempty).
Qed.

Lemma split_into_sections_header_driven_witness :
  let text := "Intro" +:+ NL +:+ "Risk Factors" +:+ NL +:+ "Risk Factors again"
              +:+ NL +:+ "We face risks." in
  length (_split_into_sections text) = 2 + 1
  /\ _split_into_sections text
     = [(NL +:+ "Intro", "other"); ("Risk Factors", "risk_factors")]
       ++ [("Risk Factors again" +:+ NL +:+ "We face risks.", "risk_factors")].
Proof.
  intros text.
  assert (Forall (fun line => is_header line = false) ["We face risks."]) as Hbody
    by (by repeat constructor).
  exact (split_into_sections_header_driven text ["Intro"; "Risk Factors"]
           "Risk Factors again" ["We face risks."] eq_refl eq_refl Hbody).
Defined.

(** ** Metric Extractor *)

(** The captured numbers can always be parsed: extraction never raises. *)

Lemma digit_string_app a b : digit_string a -> digit_string b -> digit_string (a +:+ b).
Proof.
  unfold digit_string. induction a as [|c a IH]; [done|].
  rewrite str_app_cons. simpl. intros [-> Ha]%andb_true_iff Hb. by apply IH.
Qed.

Lemma str_remove_app c a b : str_remove c (a +:+ b) = str_remove c a +:+ str_remove c b.
Proof.
  induction a as [|x a IH]; [done|]. rewrite str_app_cons. simpl.
  destruct (Ascii.eqb x c); [done|]. by rewrite str_app_cons, IH.
Qed.

Lemma is_digit_not c x : is_digit x = true -> is_digit c = false -> Ascii.eqb x c = false.
Proof.
  intros Hx Hc. destruct (Ascii.eqb x c) eqn:He; [|done].
  apply Ascii.eqb_eq in He as ->. congruence.
Qed.

Lemma str_remove_digits c s :
  is_digit c = false -> digit_string s -> str_remove c s = s.
Proof.
  unfold digit_string. intros Hc. induction s as [|x s IH]; [done|]. simpl.
  intros [Hx Hs]%andb_true_iff. rewrite (is_digit_not c x Hx Hc). by rewrite IH.
Qed.

Lemma str_split_digits c s :
  is_digit c = false -> digit_string s -> str_split c s = [s].
Proof.
  unfold digit_string. intros Hc. induction s as [|x s IH]; [done|]. simpl.
  intros [Hx Hs]%andb_true_iff. rewrite (is_digit_not c x Hx Hc). by rewrite IH.
Qed.

Lemma str_split_digits_sep c a b :
  is_digit c = false -> digit_string a -> digit_string b ->
  str_split c (a +:+ String c b) = [a; b].
Proof.
  unfold digit_string at 1. intros Hc Ha Hb. induction a as [|x a IH].
  - rewrite str_app_nil_l. simpl. rewrite Ascii.eqb_refl.
    by rewrite str_split_digits.
  - rewrite str_app_cons. simpl in *. apply andb_true_iff in Ha as [Hx Ha].
    rewrite (is_digit_not c x Hx Hc). by rewrite IH.
Qed.

Lemma all_digits_intro s : s <> "" -> digit_string s -> all_digits s = true.
Proof. intros Hne Hd. unfold all_digits. rewrite Hd. by destruct s. Qed.

Lemma float_of_decimal_int s :
  s <> "" -> digit_string s -> is_Some (float_of_decimal s).
Proof.
  intros Hne Hd. unfold float_of_decimal.
  rewrite (str_split_digits "." s) by done.
  by rewrite all_digits_intro.
Qed.

Lemma float_of_decimal_frac a b :
  a <> "" -> digit_string a -> b <> "" -> digit_string b ->
  is_Some (float_of_decimal (a +:+ String "." b)).
Proof.
  intros Ha Hda Hb Hdb. unfold float_of_decimal.
  rewrite (str_split_digits_sep "." a b) by done.
  by rewrite !all_digits_intro.
Qed.

(** Shapes of the matches of the sub-patterns *)
Lemma matches_dg ic s : matches ic dg s -> exists c, s = String c "" /\ is_digit c = true.
Proof. inversion 1; subst. eauto. Qed.

Lemma matches_Lit_false c s : matches false (Lit c) s -> s = String c "".
Proof.
  inversion 1 as [|? x Hc| | | | | | |]; subst. simpl in Hc.
  by apply Ascii.eqb_eq in Hc as ->.
Qed.

Lemma matches_star_dg ic s : matches ic (Star dg) s -> digit_string s.
Proof.
  intros H. remember (Star dg) as r eqn:Hr.
  induction H as [| | | | | | |r0 a b Hne Ha _ Hb IHb|]; try discriminate; [done|].
  injection Hr as ->. apply matches_dg in Ha as (c & -> & Hc).
  apply digit_string_app; [|by apply IHb].
  unfold digit_string. simpl. by rewrite Hc.
Qed.

Lemma matches_plus_dg ic s : matches ic (Plus dg) s -> s <> "" /\ digit_string s.
Proof.
  inversion 1 as [| | |? ? a b Ha Hb| | | | |]; subst.
  apply matches_dg in Ha as (c & -> & Hc). apply matches_star_dg in Hb.
  split; [done|]. apply (digit_string_app (String c "")); [|done].
  unfold digit_string. simpl. by rewrite Hc.
Qed.

Lemma matches_lit_false w s : matches false (lit w) s -> s = w.
Proof.
  revert s. induction w as [|c w IH]; intros s; simpl.
  - by inversion 1.
  - inversion 1 as [| | |? ? a b Ha Hb| | | | |]; subst.
    apply matches_Lit_false in Ha as ->. by apply IH in Hb as ->.
Qed.

Lemma currency_match_groups s rest g :
  match_at false currency_pattern s = Some (rest, g) ->
  exists m1, matches false currency_number m1
    /\ (g = [(1, m1)]
        \/ exists m2, matches false scale_word m2 /\ g = [(2, m2); (1, m1)]).
Proof.
  unfold match_at, currency_pattern. intros H.
  cbn [seq fold_right] in H.
  apply ReFacts.run_cat_keeps in H as (? & s1 & _ & _ & H); [|reflexivity].
  apply ReFacts.run_cat_keeps in H as (? & s2 & _ & _ & H); [|reflexivity].
  apply ReFacts.run_cat_group in H as (m1 & s3 & _ & Hm1 & H); [|reflexivity].
  apply ReFacts.run_cat_keeps in H as (? & s4 & _ & _ & H); [|reflexivity].
  exists m1. split; [exact Hm1|].
  apply ReFacts.run_cat_opt_group in H as [(m2 & s5 & _ & Hm2 & H)|H]; [| |reflexivity].
  - right. exists m2. split; [exact Hm2|]. simpl in H. by simplify_eq.
  - left. simpl in H. by simplify_eq.
Qed.

Lemma percentage_match_groups s rest g :
  match_at false percentage_pattern s = Some (rest, g) ->
  exists m1, matches false percentage_number m1 /\ g = [(1, m1)].
Proof.
  unfold match_at, percentage_pattern. intros H.
  cbn [seq fold_right] in H.
  apply ReFacts.run_cat_group in H as (m1 & s1 & _ & Hm1 & H); [|reflexivity].
  apply ReFacts.run_cat_keeps in H as (? & s2 & _ & _ & H); [|reflexivity].
  apply ReFacts.run_cat_keeps in H as (? & s3 & _ & _ & H); [|reflexivity].
  exists m1. split; [exact Hm1|]. simpl in H. by simplify_eq.
Qed.

Lemma matches_thousands s :
  matches false (Star (seq [Lit ","; dg; dg; dg])) s ->
  digit_string (str_remove "," s).
Proof.
  intros H. remember (Star (seq [Lit ","; dg; dg; dg])) as r eqn:Hr.
  induction H as [| | | | | | |r0 a b Hne Ha _ Hb IHb|]; try discriminate; [done|].
  injection Hr as ->. rewrite str_remove_app.
  apply digit_string_app; [|by apply IHb]. clear -Ha.
  cbn [seq fold_right] in Ha.
  inversion Ha as [| | |? ? a0 b0 Hc H1| | | | |]; subst.
  apply matches_Lit_false in Hc as ->.
  inversion H1 as [| | |? ? a1 b1 Hd1 H2| | | | |]; subst.
  inversion H2 as [| | |? ? a2 b2 Hd2 H3| | | | |]; subst.
  inversion H3 as [| | |? ? a3 b3 Hd3 H4| | | | |]; subst.
  inversion H4; subst.
  apply matches_dg in Hd1 as (c1 & -> & Hc1).
  apply matches_dg in Hd2 as (c2 & -> & Hc2).
  apply matches_dg in Hd3 as (c3 & -> & Hc3).
  unfold digit_string. simpl.
  rewrite !(is_digit_not "," _) by done. simpl. by rewrite Hc1, Hc2, Hc3.
Qed.

Lemma currency_number_parses s :
  matches false currency_number s ->
  is_Some (float_of_decimal (str_remove "," s)).
Proof.
  unfold currency_number. cbn [seq fold_right].
  inversion 1 as [| | |? ? d rest1 Hd H1| | | | |]; subst.
  inversion H1 as [| | |? ? t rest2 Ht H2| | | | |]; subst.
  inversion H2 as [| | |? ? f rest3 Hf H3| | | | |]; subst.
  inversion H3; subst.
  apply matches_plus_dg in Hd as [Hne Hd]. apply matches_thousands in Ht.
  rewrite !str_remove_app, (str_remove_digits "," d) by done.
  rewrite <-str_app_assoc. simpl str_remove at 2. rewrite str_app_nil_r.
  assert (d +:+ str_remove "," t <> "") as Hne' by (by destruct d).
  pose proof (digit_string_app _ _ Hd Ht) as Hd'.
  inversion Hf as [| | | |? ? ? Hfrac|? ? ? Hnone| | |]; subst.
  - inversion Hfrac as [| | |? ? a0 b0 Hc F1| | | | |]; subst.
    apply matches_Lit_false in Hc as ->.
    inversion F1 as [| | |? ? a1 b1 Hd1 F2| | | | |]; subst.
    inversion F2 as [| | |? ? a2 b2 Hd2 F3| | | | |]; subst.
    inversion F3; subst.
    apply matches_dg in Hd1 as (c1 & -> & Hc1).
    apply matches_dg in Hd2 as (c2 & -> & Hc2).
    simpl str_remove. rewrite !(is_digit_not "," _) by done.
    apply float_of_decimal_frac; [done|done|done|].
    unfold digit_string. simpl. by rewrite Hc1, Hc2.
  - inversion Hnone; subst. simpl str_remove. rewrite str_app_nil_r.
    by apply float_of_decimal_int.
Qed.

Lemma percentage_number_parses s :
  matches false percentage_number s -> is_Some (float_of_decimal s).
Proof.
  unfold percentage_number. cbn [seq fold_right].
  inversion 1 as [| | |? ? d rest1 Hd H1| | | | |]; subst.
  inversion H1 as [| | |? ? f rest2 Hf H2| | | | |]; subst.
  inversion H2; subst. rewrite str_app_nil_r.
  apply matches_plus_dg in Hd as [Hne Hd].
  inversion Hf as [| | | |? ? ? Hfrac|? ? ? Hnone| | |]; subst.
  - inversion Hfrac as [| | |? ? a0 b0 Hc F1| | | | |]; subst.
    apply matches_Lit_false in Hc as ->.
    inversion F1 as [| | |? ? a1 b1 Hd1 F2| | | | |]; subst.
    inversion F2; subst. rewrite str_app_nil_r.
    apply matches_plus_dg in Hd1 as [Hne1 Hd1].
    rewrite str_app_cons, str_app_nil_l.
    by apply float_of_decimal_frac.
  - inversion Hnone; subst. rewrite str_app_nil_r.
    by apply float_of_decimal_int.
Qed.

Lemma scale_word_multiplier w :
  matches false scale_word w -> str_nonempty w = true /\ is_Some (multiplier w).
Proof.
  unfold scale_word.
  inversion 1 as [| | | |? ? ? H1|? ? ? H1| | |]; subst.
  - by apply (matches_lit_false "million") in H1 as ->.
  - inversion H1 as [| | | |? ? ? H2|? ? ? H2| | |]; subst.
    + by apply (matches_lit_false "billion") in H2 as ->.
    + by apply (matches_lit_false "trillion") in H2 as ->.
Qed.

Lemma currency_amount_is_Some s rest g :
  match_at false currency_pattern s = Some (rest, g) -> is_Some (currency_amount g).
Proof.
  intros (m1 & Hm1 & Hg)%currency_match_groups.
  destruct (currency_number_parses _ Hm1) as [amount Ha].
  unfold currency_amount.
  destruct Hg as [->|(m2 & Hm2 & ->)]; cbn [group List.find fst snd Nat.eqb fmap option_fmap option_map mbind option_bind]; rewrite Ha; cbn.
  - done.
  - destruct (scale_word_multiplier _ Hm2) as [-> [mult ->]]. done.
Qed.

Lemma percentage_value_is_Some s rest g :
  match_at false percentage_pattern s = Some (rest, g) -> is_Some (percentage_value g).
Proof.
  intros (m1 & Hm1 & ->)%percentage_match_groups.
  unfold percentage_value. cbn. by apply percentage_number_parses.
Qed.

(** Metric extraction never raises. *)
Lemma extract_metrics_total text : is_Some (_extract_metrics text).
Proof.
  unfold _extract_metrics.
  assert (is_Some (mapM currency_amount (finditer false currency_pattern text)))
    as [cur ->].
  { apply mapM_is_Some, Forall_forall. intros g Hg.
    apply ReFacts.finditer_from_matches in Hg as (s' & rest & Hm).
    by eapply currency_amount_is_Some. }
  assert (is_Some (mapM percentage_value (finditer false percentage_pattern text)))
    as [pct ->].
  { apply mapM_is_Some, Forall_forall. intros g Hg.
    apply ReFacts.finditer_from_matches in Hg as (s' & rest & Hm).
    by eapply percentage_value_is_Some. }
  done.
Qed.

(** C1 (behaviour of the code at the example of the claim): the currency
    pattern admits a fraction of exactly two digits, so on "$1.5 million"
    the match ends after "$1", the scale word is never reached and the
    amount is 1, not 1500000.  The percentage sequence is [12.3]. *)
Theorem extract_metrics_example :
  _extract_metrics "$1.5 million in revenue and a 12.3% increase"
  = Some (Metrics [Qmake 1 1] [Qmake 123 10])
  /\ finditer false currency_pattern "$1.5 million in revenue and a 12.3% increase"
     = [[(1, "1")]].
Proof. split; reflexivity. Qed.

(** With a two-digit fraction, or none, the scale word is applied and the
    thousands separators are dropped, as the claim says. *)
Lemma extract_metrics_scaled :
  _extract_metrics "$1.50 million, $2 billion and $1,234,567.89 trillion"
  = Some (Metrics [Qmake 1500000 1; Qmake 2000000000 1;
                   Qmake 1234567890000000000 1] []).
Proof. reflexivity. Qed.

(** ** Processing a filing *)

(** C8: a filing whose text is empty yields no chunk, and no exception. *)
Theorem process_document_empty_text (split_text : string -> list string)
    (str_float : Q -> string) (document : SECDocument) :
  document_text document = "" ->
  process_document split_text str_float document = Some [].
Proof. unfold process_document. by intros ->. Qed.

Lemma process_document_empty_text_witness :
  process_document (fun s => [s]) (fun _ => "0.0")
    {| filing_id := "0000320193-24-000001"; company_name := "Apple Inc.";
       ticker := "AAPL"; filing_type := "10-K";
       filing_date := "2024-01-01 00:00:00"; document_text := "";
       doc_metadata := ∅; doc_sections := ∅ |}
  = Some [].
Proof. by apply process_document_empty_text. Defined.

(** ** Record keys *)


Section Keys.
Variable split_text : string -> list string.
Variable str_float : Q -> string.

Lemma chunk_record_key document section_type n i t c :
  chunk_record str_float document section_type n i t = Some c ->
  record_key c = Some (key_of document i).
Proof.
  unfold chunk_record. intros H.
  destruct (_extract_metrics t) as [m|]; simplify_eq/=.
  unfold record_key. simpl. by simplify_map_eq.
Qed.

Lemma mapM_imap_Forall {A B} (P : B -> Prop) l :
  forall (f : nat -> A -> option B) cs,
  (forall i x c, f i x = Some c -> P c) ->
  mapM (fun x => x) (imap f l) = Some cs -> Forall P cs.
Proof.
  induction l as [|x l IH]; intros f cs Hf H; simplify_option_eq; [done|].
  constructor; [by eapply Hf|]. eapply IH; [|done]. intros i ?? Hi.
  by eapply Hf.
Qed.

Lemma mapM_imap_head {A B} (f : nat -> A -> option B) x l cs :
  mapM (fun x => x) (imap f (x :: l)) = Some cs ->
  exists c cs', cs = c :: cs' /\ f 0 x = Some c.
Proof. intros H. simplify_option_eq. eauto. Qed.

Lemma section_chunks_keyed document sec cs :
  section_chunks split_text str_float document sec = Some cs ->
  Forall (fun c => is_Some (record_key c)) cs.
Proof.
  unfold section_chunks. apply mapM_imap_Forall.
  intros i x c Hc. rewrite (chunk_record_key _ _ _ _ _ _ Hc). eauto.
Qed.

Lemma section_chunks_first document sec cs :
  split_text (_clean_text (fst sec)) <> [] ->
  section_chunks split_text str_float document sec = Some cs ->
  exists c cs', cs = c :: cs' /\ record_key c = Some (key_of document 0).
Proof.
  unfold section_chunks. intros Hne H.
  destruct (split_text (_clean_text sec.1)) as [|t ts]; [done|].
  apply mapM_imap_head in H as (c & cs' & -> & Hc).
  exists c, cs'. split; [done|]. by eapply chunk_record_key.
Qed.

Lemma section_chunks_total document sec :
  is_Some (section_chunks split_text str_float document sec).
Proof.
  unfold section_chunks. apply mapM_is_Some, Forall_forall.
  intros x (i & t & -> & _)%elem_of_lookup_imap. unfold chunk_record.
  destruct (extract_metrics_total t) as [m ->]. simpl. eauto.
Qed.

(** Processing a filing never raises. *)
Lemma process_document_total document :
  is_Some (process_document split_text str_float document).
Proof.
  unfold process_document. destruct (str_nonempty _); [|done].
  destruct (mapM_is_Some_2 (section_chunks split_text str_float document)
              (_split_into_sections (document_text document))) as [css ->];
    [|done].
  apply Forall_forall. intros sec _. apply section_chunks_total.
Qed.

(** C3 (behaviour of the code): when the first two sections of a filing
    both yield a chunk, the first chunk of each gets the key
    [filing_id_0], because [chunk_index] restarts in every section and
    the key has no section in it: the keys passed to the engine are not
    pairwise distinct. *)
Theorem record_keys_collide_across_sections (document : SECDocument)
    (s1 t1 s2 t2 : string) (rest : list (string * string)) :
  _split_into_sections (document_text document) = (s1, t1) :: (s2, t2) :: rest ->
  split_text (_clean_text s1) <> [] ->
  split_text (_clean_text s2) <> [] ->
  exists chunks call,
    process_document split_text str_float document = Some chunks
    /\ add_documents chunks = Some (Some call)
    /\ add_texts call = map text chunks
    /\ ~ NoDup (add_ids call).
Proof.
  intros Hsec H1 H2.
  destruct (process_document_total document) as [chunks Hp].
  exists chunks. pose proof Hp as Hp'. unfold process_document in Hp.
  destruct (document_text document) as [|a txt] eqn:Htxt.
  { by vm_compute in Hsec. }
  simpl in Hp. rewrite Hsec in Hp. simpl in Hp.
  destruct (section_chunks _ _ _ (s1, t1)) as [cs1|] eqn:E1; [|done].
  destruct (section_chunks _ _ _ (s2, t2)) as [cs2|] eqn:E2; [|done].
  destruct (mapM _ rest) as [css|] eqn:E3; [|done].
  simpl in Hp. injection Hp as <-.
  pose proof (section_chunks_keyed _ _ _ E1) as K1.
  pose proof (section_chunks_keyed _ _ _ E2) as K2.
  assert (Forall (fun c => is_Some (record_key c)) (concat css)) as K3.
  { apply Forall_concat. apply mapM_Some in E3. clear -E3.
    induction E3 as [|sec cs ?? Hs _ IH]; constructor; [|done].
    by eapply section_chunks_keyed. }
  apply section_chunks_first in E1 as (c1 & cs1' & -> & Hk1); [|done].
  apply section_chunks_first in E2 as (c2 & cs2' & -> & Hk2); [|done].
  destruct (mapM record_key ((c1 :: cs1') ++ (c2 :: cs2') ++ concat css))
    as [ids|] eqn:Hids.
  2:{ exfalso. eapply eq_None_not_Some; [exact Hids|].
      apply mapM_is_Some. by rewrite !Forall_app. }
  exists (AddCall (map text ((c1 :: cs1') ++ (c2 :: cs2') ++ concat css))
                  (map metadata ((c1 :: cs1') ++ (c2 :: cs2') ++ concat css)) ids).
  split; [done|]. split; [|split; [done|]].
  { unfold add_documents. simpl app at 1. cbv iota. by rewrite Hids. }
  simpl. apply mapM_Some in Hids.
  apply Forall2_app_inv_l in Hids as (i1 & i2 & Hi1 & Hi2 & ->).
  apply Forall2_cons_inv_l in Hi1 as (k1 & i1' & Hc1 & _ & ->).
  apply Forall2_app_inv_l in Hi2 as (i2' & i3 & Hi2 & _ & ->).
  apply Forall2_cons_inv_l in Hi2 as (k2 & i2'' & Hc2 & _ & ->).
  rewrite Hk1 in Hc1. rewrite Hk2 in Hc2. simplify_eq.
  intros Hnd. apply NoDup_cons in Hnd as [Hin _]. apply Hin.
  rewrite elem_of_app. right. rewrite elem_of_app. left. by left.
Qed.
End Keys.

Lemma record_keys_collide_across_sections_witness :
  let document :=
    {| filing_id := "0000320193-24-000001"; company_name := "Apple Inc.";
       ticker := "AAPL"; filing_type := "10-K";
       filing_date := "2024-01-01 00:00:00";
       document_text := "Item 1A. Risk Factors" +:+ NL +:+ "We face risks."
                        +:+ NL +:+ "Item 1. Business" +:+ NL +:+ "We sell phones.";
       doc_metadata := ∅; doc_sections := ∅ |} in
  exists chunks call,
    process_document (fun s => [s]) (fun _ => "0.0") document = Some chunks
    /\ add_documents chunks = Some (Some call)
    /\ add_texts call = map text chunks
    /\ ~ NoDup (add_ids call).
Proof.
  intros document.
  eapply (record_keys_collide_across_sections (fun s => [s]) (fun _ => "0.0")
            document).
  - reflexivity.
  - done.
  - done.
Defined.

(** The keys of that filing, evaluated: both chunks are keyed
    [0000320193-24-000001_0]. *)
Lemma record_keys_example :
  (chunks ← process_document (fun s => [s]) (fun _ => "0.0")
     {| filing_id := "0000320193-24-000001"; company_name := "Apple Inc.";
        ticker := "AAPL"; filing_type := "10-K";
        filing_date := "2024-01-01 00:00:00";
        document_text := "Item 1A. Risk Factors" +:+ NL +:+ "We face risks."
                         +:+ NL +:+ "Item 1. Business" +:+ NL +:+ "We sell phones.";
        doc_metadata := ∅; doc_sections := ∅ |};
   mapM record_key chunks)
  = Some ["0000320193-24-000001_0"; "0000320193-24-000001_0"].
Proof. by vm_compute. Qed.

(** ** Filter translation *)

Lemma condition_not_in key value :
  uses_in value = false -> condition key value = Some (PDict [(key, value)]).
Proof.
  destruct value as [| | | | |d]; try done. simpl. intros H.
  destruct (dict_get d "$in") as [operand|] eqn:Hd; [|done].
  by rewrite bool_decide_eq_false in H; destruct H.
Qed.

Lemma condition_in key d operand :
  dict_get d "$in" = Some operand ->
  condition key (PDict d)
  = vs ← py_iter operand;
    Some (PDict [("$or", PList (map (fun v => PDict [(key, v)]) vs))]).
Proof. simpl. by intros ->. Qed.

Lemma condition_None key value :
  condition key value = None <->
  exists d operand, value = PDict d /\ dict_get d "$in" = Some operand
                    /\ py_iter operand = None.
Proof.
  split.
  - destruct value as [| | | | |d]; try done. simpl.
    destruct (dict_get d "$in") as [operand|] eqn:Hd; [|done].
    destruct (py_iter operand) eqn:Hi; [done|]. eauto.
  - intros (d & operand & -> & Hd & Hi). simpl. by rewrite Hd, Hi.
Qed.

Lemma mapM_condition_None fm :
  mapM (fun kv => condition (fst kv) (snd kv)) fm = None <->
  exists key d operand, (key, PDict d) ∈ fm /\ dict_get d "$in" = Some operand
                        /\ py_iter operand = None.
Proof.
  induction fm as [|[k v] fm IH]; simpl.
  - split; [done|]. intros (? & ? & ? & H & _). by apply elem_of_nil in H.
  - destruct (condition k v) as [c|] eqn:Hc; simpl.
    + destruct (mapM _ fm) as [cs|] eqn:Hm; simpl.
      * split; [done|]. intros (key & d & operand & Hin & Hd & Hi).
        apply elem_of_cons in Hin as [Heq|Hin].
        -- injection Heq as <- <-. simpl in Hc. by rewrite Hd, Hi in Hc.
        -- destruct IH as [_ IH]. discriminate IH. eauto 6.
      * split; [|done]. intros _. destruct IH as [IH _].
        destruct (IH eq_refl) as (key & d & operand & Hin & Hd & Hi).
        exists key, d, operand. split; [by right|done].
    + split; [|done]. intros _.
      apply condition_None in Hc as (d & operand & -> & Hd & Hi).
      exists k, d, operand. split; [by left|done].
Qed.

Lemma build_where_clause_None fm :
  _build_where_clause (Some fm) = None <->
  exists key d operand, (key, PDict d) ∈ fm /\ dict_get d "$in" = Some operand
                        /\ py_iter operand = None.
Proof.
  rewrite <-mapM_condition_None. destruct fm as [|kv fm]; [done|].
  cbn [_build_where_clause].
  destruct (mapM _ (kv :: fm)) as [[|c [|c' cs]]|]; done.
Qed.

(** C6: the four cases of the filter translation. *)
Theorem build_where_clause_translation (key : string) (value : pyval)
    (d : list (string * pyval)) (vs : list pyval)
    (fm : list (string * pyval)) (conditions : list pyval) :
  uses_in value = false ->
  dict_get d "$in" = Some (PList vs) ->
  2 <= length fm ->
  mapM (fun kv => condition (fst kv) (snd kv)) fm = Some conditions ->
  (* one field, plain value: the filter itself *)
  _build_where_clause (Some [(key, value)]) = Some (Some (PDict [(key, value)]))
  (* a field with "$in": a disjunction of exact-match clauses for that field *)
  /\ _build_where_clause (Some [(key, PDict d)])
     = Some (Some (PDict [("$or", PList (map (fun v => PDict [(key, v)]) vs))]))
  (* several fields: the conjunction of the per-field clauses *)
  /\ _build_where_clause (Some fm) = Some (Some (PDict [("$and", PList conditions)]))
  (* absent or empty filter: no filter expression *)
  /\ _build_where_clause None = Some None
  /\ _build_where_clause (Some []) = Some None.
Proof.
  intros Hplain Hin Hlen Hm. repeat split.
  - simpl. by rewrite (condition_not_in _ _ Hplain).
  - cbn [_build_where_clause mapM fst snd]. rewrite (condition_in _ _ _ Hin).
    reflexivity.
  - destruct fm as [|kv1 [|kv2 fm]]; [simpl in Hlen; lia..|].
    cbn [_build_where_clause]. rewrite Hm.
    apply mapM_Some, Forall2_length in Hm.
    destruct conditions as [|c1 [|c2 conditions]]; done.
Qed.

Lemma build_where_clause_translation_witness :
  _build_where_clause (Some [("filing_type", PStr "10-K")])
  = Some (Some (PDict [("filing_type", PStr "10-K")]))
  /\ _build_where_clause
       (Some [("filing_type", PDict [("$in", PList [PStr "10-K"; PStr "10-Q"])])])
     = Some (Some (PDict [("$or", PList [PDict [("filing_type", PStr "10-K")];
                                         PDict [("filing_type", PStr "10-Q")]])]))
  /\ _build_where_clause
       (Some [("ticker", PDict [("$in", PList [PStr "AAPL"; PStr "MSFT"])]);
              ("filing_type", PStr "10-K")])
     = Some (Some (PDict [("$and", PList
          [PDict [("$or", PList [PDict [("ticker", PStr "AAPL")];
                                 PDict [("ticker", PStr "MSFT")]])];
           PDict [("filing_type", PStr "10-K")]])]))
  /\ _build_where_clause None = Some None
  /\ _build_where_clause (Some []) = Some None.
Proof.
  apply (build_where_clause_translation "filing_type" (PStr "10-K")
           [("$in", PList [PStr "10-K"; PStr "10-Q"])]
           [PStr "10-K"; PStr "10-Q"]
           [("ticker", PDict [("$in", PList [PStr "AAPL"; PStr "MSFT"])]);
            ("filing_type", PStr "10-K")]).
  - reflexivity.
  - reflexivity.
  - simpl. lia.
  - reflexivity.
Defined.

(** C7 as stated fails.  Neither filter below has a supported shape: the
    first gives "$in" a string instead of a list, the second uses another
    operator.  The translation raises nothing: the first becomes a
    disjunction over the characters of the string, the second is passed on
    as it is, and with an engine that accepts what it is given the search
    returns normally. *)
Lemma search_accepts_unsupported_filter :
  let engine : list string -> Z -> option pyval -> option (envelope * store) :=
    fun _ _ _ => Some (Envelope [[]] [[]], ∅) in
  let f1 := [("ticker", PDict [("$in", PStr "AB")])] in
  let f2 := [("filing_date", PDict [("$gt", PStr "2024")])] in
  supported_filter f1 = false
  /\ _build_where_clause (Some f1)
     = Some (Some (PDict [("$or", PList [PDict [("ticker", PStr "A")];
                                         PDict [("ticker", PStr "B")]])]))
  /\ search (fun _ => true) engine "revenue" (Some f1) 5
     = Some (Envelope [[]] [[]], ∅)
  /\ supported_filter f2 = false
  /\ _build_where_clause (Some f2)
     = Some (Some (PDict [("filing_date", PDict [("$gt", PStr "2024")])]))
  /\ search (fun _ => true) engine "revenue" (Some f2) 5
     = Some (Envelope [[]] [[]], ∅).
Proof. by vm_compute. Qed.

(** C7 (amended): the translation checks no shape.  It raises exactly when
    some field gives "$in" an operand that cannot be iterated; every other
    filter, supported or not, is translated and handed to the engine, whose
    verdict is the result of the search. *)
Theorem search_no_shape_validation (float_accepts : string -> bool)
    (collection_query : list string -> Z -> option pyval -> option (envelope * store))
    (query : string) (fm : list (string * pyval)) (limit : Z) :
  (_build_where_clause (Some fm) = None <->
   exists key d operand, (key, PDict d) ∈ fm /\ dict_get d "$in" = Some operand
                         /\ py_iter operand = None)
  /\ (_build_where_clause (Some fm) = None ->
      search float_accepts collection_query query (Some fm) limit = None)
  /\ (forall where_, _build_where_clause (Some fm) = Some where_ ->
      search float_accepts collection_query query (Some fm) limit
      = '(results, σ) ← collection_query [query] (limit * 2)%Z where_;
        _process_results float_accepts σ results limit).
Proof.
  split; [apply build_where_clause_None|].
  unfold search. split.
  - by intros ->.
  - by intros w ->.
Qed.

Lemma search_no_shape_validation_witness :
  let engine : list string -> Z -> option pyval -> option (envelope * store) :=
    fun _ _ where_ =>
      match where_ with
      | Some (PDict [(_, PList _)]) => None
      | _ => Some (Envelope [[]] [[]], ∅)
      end%string in
  search (fun _ => true) engine "revenue"
         (Some [("ticker", PDict [("$in", PInt 7)])]) 5 = None
  /\ search (fun _ => true) engine "revenue"
            (Some [("ticker", PList [PStr "AAPL"])]) 5
     = engine ["revenue"] 10%Z (Some (PDict [("ticker", PList [PStr "AAPL"])]))
       ≫= (fun '(results, σ) => _process_results (fun _ => true) σ results 5).
Proof.
  intros engine. split.
  - apply (search_no_shape_validation (fun _ => true) engine "revenue"
             [("ticker", PDict [("$in", PInt 7)])] 5). reflexivity.
  - apply (search_no_shape_validation (fun _ => true) engine "revenue"
             [("ticker", PList [PStr "AAPL"])] 5). reflexivity.
Defined.

(** ** Result Reconciler *)

Lemma first_seen_fresh seen items p :
  p ∈ first_seen seen items -> str_take 100 p.1 ∉ seen.
Proof.
  revert seen. induction items as [|[doc r] items IH]; intros seen; simpl.
  - by intros ?%elem_of_nil.
  - case_decide as Hin.
    + apply IH.
    + intros [->|Hp]%elem_of_cons; [done|].
      apply IH in Hp. set_solver.
Qed.

Lemma first_seen_NoDup seen items :
  NoDup (map (fun p => str_take 100 p.1) (first_seen seen items)).
Proof.
  revert seen. induction items as [|[doc r] items IH]; intros seen; simpl.
  - constructor.
  - case_decide as Hin; [apply IH|].
    simpl. constructor; [|apply IH].
    intros (p & Hp & Hin')%list_elem_of_fmap.
    apply first_seen_fresh in Hin'. set_solver.
Qed.

Lemma first_seen_app seen a b :
  exists seen', first_seen seen (a ++ b) = first_seen seen a ++ first_seen seen' b.
Proof.
  revert seen. induction a as [|[doc r] a IH]; intros seen; simpl.
  - by exists seen.
  - case_decide.
    + apply IH.
    + destruct (IH ({[str_take 100 doc]} ∪ seen)) as [seen' ->]. by exists seen'.
Qed.

Section ReconcilerFacts.
Variable float_accepts : string -> bool.

(** The loop: what has been kept when it ends, and where it stopped. *)
Lemma reconcile_kept limit : forall items processed seen σ out σ',
  reconcile float_accepts limit items processed seen σ = Some (out, σ') ->
  (Z.of_nat (length processed) < limit)%Z ->
  exists scanned skipped,
    items = scanned ++ skipped
    /\ out = processed ++ first_seen seen scanned
    /\ (skipped = [] \/ Z.of_nat (length out) = limit)
    /\ (Z.of_nat (length out) <= limit)%Z.
Proof.
  induction items as [|[doc r] items IH]; intros processed seen σ out σ' H Hlt;
    simpl in H.
  - simplify_eq. exists [], []. simpl. rewrite app_nil_r.
    split; [done|]. split; [done|]. split; [by left|lia].
  - case_decide as Hseen; simpl in H.
    + destruct (limit <=? Z.of_nat (length processed))%Z eqn:Hle;
        [apply Z.leb_le in Hle; lia|].
      apply IH in H as (scanned & skipped & -> & -> & Hstop & Hlen); [|done].
      exists ((doc, r) :: scanned), skipped. simpl.
      rewrite decide_True by done. done.
    + destruct (annotate float_accepts σ r) as [σ1|]; [|done]. simpl in H.
      destruct (limit <=? Z.of_nat (length (processed ++ [(doc, r)])))%Z eqn:Hle.
      * apply Z.leb_le in Hle. simplify_eq. exists [(doc, r)], items. simpl.
        rewrite decide_False by done. rewrite length_app in *. simpl in *.
        split; [done|]. split; [done|]. split; [right; lia|lia].
      * apply Z.leb_gt in Hle.
        apply IH in H as (scanned & skipped & -> & -> & Hstop & Hlen); [|lia].
        exists ((doc, r) :: scanned), skipped. simpl.
        rewrite decide_False by done. rewrite <-app_assoc in *. simpl in *.
        done.
Qed.

Lemma count_floats_insert m field v :
  field <> "metrics_summary" ->
  count_floats float_accepts (<["metrics_summary" := v]> m) field
  = count_floats float_accepts m field.
Proof. intros Hne. unfold count_floats. by rewrite lookup_insert_ne. Qed.

Lemma annotate_is_Some σ r m :
  σ !! r = Some m -> meta_parses float_accepts m -> is_Some (annotate float_accepts σ r).
Proof.
  intros Hr Hm. unfold annotate. rewrite Hr. simpl.
  case_decide as Hh; [|done].
  destruct (Hm Hh) as [[n1 ->] [n2 ->]]. done.
Qed.

Lemma annotate_lookup σ r σ1 r' :
  annotate float_accepts σ r = Some σ1 -> is_Some (σ !! r') -> is_Some (σ1 !! r').
Proof.
  unfold annotate. intros H Hs.
  destruct (σ !! r) as [m|] eqn:Hr; [|done]. simpl in H.
  case_decide as Hh; [|by simplify_eq].
  destruct (count_floats float_accepts m "currency_amounts") as [n1|]; [|done].
  destruct (count_floats float_accepts m "percentages") as [n2|]; [|done].
  simpl in H. simplify_eq.
  destruct (decide (r = r')) as [->|Hne].
  - rewrite lookup_insert_eq. eauto.
  - by rewrite lookup_insert_ne.
Qed.

(** An annotation leaves every record parseable. *)
Lemma annotate_parses σ r σ1 r' m' :
  annotate float_accepts σ r = Some σ1 ->
  σ1 !! r' = Some m' ->
  exists m, σ !! r' = Some m
    /\ (meta_parses float_accepts m -> meta_parses float_accepts m').
Proof.
  unfold annotate. intros H Hr'.
  destruct (σ !! r) as [m|] eqn:Hr; [|done]. simpl in H.
  case_decide as Hh; [|by simplify_eq; eauto].
  destruct (count_floats float_accepts m "currency_amounts") as [n1|]; [|done].
  destruct (count_floats float_accepts m "percentages") as [n2|]; [|done].
  simpl in H. simplify_eq.
  destruct (decide (r = r')) as [->|Hne].
  - rewrite lookup_insert_eq in Hr'. simplify_eq. exists m. split; [done|].
    unfold meta_parses. rewrite lookup_insert_ne by done.
    by rewrite !count_floats_insert.
  - rewrite lookup_insert_ne in Hr' by done. eauto.
Qed.

Lemma reconcile_is_Some limit : forall items processed seen σ,
  store_parses float_accepts σ items ->
  is_Some (reconcile float_accepts limit items processed seen σ).
Proof.
  induction items as [|[doc r] items IH]; intros processed seen σ Hp; simpl.
  - done.
  - case_decide as Hseen; simpl.
    + destruct (limit <=? _)%Z; [done|]. apply IH.
      intros d' r' Hin. apply (Hp d' r'). by right.
    + destruct (Hp doc r) as (m & Hr & Hm); [by left|].
      destruct (annotate_is_Some _ _ _ Hr Hm) as [σ1 Hσ1]. rewrite Hσ1. simpl.
      destruct (limit <=? _)%Z; [done|]. apply IH.
      intros d' r' Hin. destruct (Hp d' r') as (m' & Hr' & Hm'); [by right|].
      destruct (σ1 !! r') as [m1|] eqn:H1.
      * destruct (annotate_parses _ _ _ _ _ Hσ1 H1) as (m0 & H0 & Himp).
        pose proof (eq_trans (eq_sym H0) Hr') as Heq. injection Heq as ->.
        exists m1. split; [done|].
        by apply Himp.
      * destruct (annotate_lookup _ _ _ r' Hσ1) as [? Hs]; [by eexists|].
        pose proof (eq_trans (eq_sym Hs) H1). done.
Qed.
End ReconcilerFacts.

Section ReconcilerClaims.
Variable float_accepts : string -> bool.

Lemma process_results_kept σ results limit out σ' :
  _process_results float_accepts σ results limit = Some (out, σ') ->
  exists kept,
    out = Envelope [map fst kept] [map snd kept]
    /\ pairs out = kept
    /\ ((pairs results = [] /\ kept = [] /\ σ' = σ)
        \/ reconcile float_accepts limit (pairs results) [] ∅ σ = Some (kept, σ')).
Proof.
  unfold _process_results, pairs. intros H.
  destruct (res_documents results) as [|[|d docs0] dtl] eqn:Hd.
  - simplify_eq. exists []. split; [done|]. split; [done|]. by left.
  - simplify_eq. exists []. split; [done|]. split; [done|]. by left.
  - destruct (res_metadatas results) as [|metas0 mtl]; [done|]. simpl in H.
    destruct (reconcile _ _ _ _ _ _) as [[kept σ1]|] eqn:Hr; [|done].
    simpl in H. simplify_eq. exists kept. split; [done|].
    split; [simpl; apply zip_fst_snd|]. by right.
Qed.

(** C5 (amended): for a limit of at least one, the reconciler returns at
    most [limit] pairs, no two with the same 100-character signature: the
    first [limit] of the first-seen pairs in raw order.  The pass is
    single and forward, and stops at the pair that completes the limit:
    what is returned is the first-seen selection of the scanned prefix.
    It returns whenever the metadata records can be parsed back. *)
Theorem process_results_capped_dedup (σ : store) (results : envelope)
    (limit : Z) :
  (1 <= limit)%Z ->
  (res_metadatas results <> [] ->
   store_parses float_accepts σ (pairs results) ->
   is_Some (_process_results float_accepts σ results limit))
  /\ forall out σ',
      _process_results float_accepts σ results limit = Some (out, σ') ->
      res_documents out = [map fst (pairs out)]
      /\ res_metadatas out = [map snd (pairs out)]
      /\ (Z.of_nat (length (pairs out)) <= limit)%Z
      /\ NoDup (map (fun p => str_take 100 (fst p)) (pairs out))
      /\ pairs out = take (Z.to_nat limit) (first_seen ∅ (pairs results))
      /\ exists scanned skipped,
           pairs results = scanned ++ skipped
           /\ pairs out = first_seen ∅ scanned
           /\ (skipped = [] \/ Z.of_nat (length (pairs out)) = limit).
Proof.
  intros Hlimit. split.
  - intros Hmeta Hparses. unfold _process_results.
    destruct (res_documents results) as [|[|d docs0] dtl] eqn:Hd; [done..|].
    destruct (res_metadatas results) as [|metas0 mtl] eqn:Hm; [done|]. simpl.
    unfold pairs in Hparses. rewrite Hd, Hm in Hparses. simpl in Hparses.
    destruct (reconcile_is_Some float_accepts limit (zip (d :: docs0) metas0)
                [] ∅ σ Hparses) as [[kept σ1] Hrun].
    simpl in Hrun. by rewrite Hrun.
  - intros out σ' H.
    apply process_results_kept in H as (kept & -> & Hpairs & Hrun).
    rewrite Hpairs. split; [done|]. split; [done|].
    destruct Hrun as [(Hnil & -> & ->)|Hrun].
    + rewrite Hnil. simpl. split; [lia|]. split; [constructor|].
      split; [by rewrite take_nil|]. exists [], [].
      split; [done|]. split; [done|]. by left.
    + apply reconcile_kept in Hrun as (scanned & skipped & Hitems & Hkept & Hstop & Hlen);
        [|simpl; lia].
      simpl in Hkept. subst kept. split; [done|].
      split; [apply first_seen_NoDup|]. split; [|by eauto].
      rewrite Hitems. destruct (first_seen_app ∅ scanned skipped) as [seen' ->].
      destruct Hstop as [->|Hstop].
      * simpl. rewrite app_nil_r. rewrite take_ge; [done|lia].
      * assert (Z.to_nat limit = length (first_seen ∅ scanned)) as -> by lia.
        by rewrite take_app_length.
Qed.

End ReconcilerClaims.

(** C5 as stated fails for a limit below one: the test [len(processed) >=
    limit] comes after the first result has been appended, so with limit 0
    one result is returned; so it is with a negative limit, which no
    result could respect. *)
Lemma process_results_limit_zero :
  let σ : store := {[ 0 := ∅; 1 := ∅ ]} in
  let results := Envelope [["Revenue grew."; "Costs fell."]] [[0; 1]] in
  let out := Envelope [["Revenue grew."]] [[0]] in
  _process_results (fun _ => true) σ results 0 = Some (out, σ)
  /\ _process_results (fun _ => true) σ results (-1) = Some (out, σ)
  /\ length (pairs out) = 1
  /\ ~ (Z.of_nat (length (pairs out)) <= 0)%Z.
Proof.
  intros σ results out.
  assert (forall limit, (limit <= 0)%Z ->
            _process_results (fun _ => true) σ results limit = Some (out, σ)) as H.
  { intros limit Hl. unfold _process_results, results, out, σ. simpl.
    rewrite decide_False by apply not_elem_of_empty.
    unfold annotate. simpl. rewrite lookup_insert_eq. simpl.
    rewrite decide_False by done. simpl.
    assert ((limit <=? Z.of_nat 1)%Z = true) as -> by (apply Z.leb_le; lia).
    done. }
  split; [by apply H|]. split; [by apply H|]. split; [done|]. simpl. lia.
Qed.

Lemma process_results_capped_dedup_witness :
  let σ : store := {[ 0 := ∅; 1 := ∅; 2 := ∅ ]} in
  let results :=
    Envelope [["Revenue grew."; "Revenue grew."; "Costs fell."]] [[0; 1; 2]] in
  exists out σ',
    _process_results (fun _ => true) σ results 5 = Some (out, σ')
    /\ pairs out = [("Revenue grew.", 0); ("Costs fell.", 2)]
    /\ (Z.of_nat (length (pairs out)) <= 5)%Z.
Proof.
  intros σ results.
  assert (1 <= 5)%Z as Hlimit by lia.
  destruct (process_results_capped_dedup (fun _ => true) σ results 5 Hlimit)
    as [Hsome Hout].
  destruct Hsome as [[out σ'] H].
  - done.
  - intros doc r Hin. exists ∅. split; [|done].
    unfold results, pairs in Hin. simpl in Hin.
    repeat (apply elem_of_cons in Hin as [Hin|Hin]; [by simplify_eq|]).
    by apply elem_of_nil in Hin.
  - exists out, σ'. split; [done|].
    destruct (Hout out σ' H) as (_ & _ & Hlen & _ & Heq & _).
    split; [|done]. rewrite Heq. by vm_compute.
Defined.

(** ** In-place annotation *)

Section Annotation.
Variable float_accepts : string -> bool.
(** The store the reconciler was called with. *)
Variable σ0 : store.
Local Abbreviation touched_only_by_annotation := (touched_only_by_annotation float_accepts σ0).
Local Abbreviation annotation_done := (annotation_done float_accepts σ0).



Lemma annotated_again m m' n1 n2 :
  annotated float_accepts m m' ->
  count_floats float_accepts m' "currency_amounts" = Some n1 ->
  count_floats float_accepts m' "percentages" = Some n2 ->
  <["metrics_summary" := MStr (summary_text n1 n2)]> m' = m'.
Proof.
  intros (a & b & Ha & Hb & ->) H1 H2.
  rewrite count_floats_insert in H1, H2 by done.
  rewrite Ha in H1. rewrite Hb in H2. simplify_eq.
  by rewrite insert_insert_eq.
Qed.

Lemma annotate_step σ r σ1 :
  touched_only_by_annotation σ ->
  annotate float_accepts σ r = Some σ1 ->
  touched_only_by_annotation σ1
  /\ annotation_done σ1 r
  /\ forall r', annotation_done σ r' -> annotation_done σ1 r'.
Proof.
  intros Hinv H. unfold annotate in H.
  destruct (σ !! r) as [mc|] eqn:Hr; [|done]. simpl in H.
  case_decide as Hh.
  - destruct (count_floats float_accepts mc "currency_amounts") as [n1|] eqn:H1;
      [|done].
    destruct (count_floats float_accepts mc "percentages") as [n2|] eqn:H2;
      [|done].
    simpl in H. injection H as <-.
    set (new := <["metrics_summary" := MStr (summary_text n1 n2)]> mc).
    assert (exists m, σ0 !! r = Some m
              /\ m !! "has_metrics" = Some (MStr "true")
              /\ annotated float_accepts m new) as (m & Hm0 & Hmh & Hann).
    { destruct (Hinv r) as [Heq|(m & m' & Hm0 & Hmh & Hann & Hm')].
      - exists mc. split; [by rewrite <-Heq|]. split; [done|].
        by exists n1, n2.
      - exists m. split; [done|]. split; [done|].
        pose proof (eq_trans (eq_sym Hr) Hm') as Heq. injection Heq as ->.
        unfold new. by rewrite (annotated_again m m' n1 n2). }
    assert (annotation_done (<[r:=new]> σ) r) as Hdone.
    { intros m1 Hm1 _. pose proof (eq_trans (eq_sym Hm0) Hm1) as Heq.
      injection Heq as <-. exists new. split; [done|]. apply lookup_insert_eq. }
    split; [|split; [done|]].
    + intros r'. destruct (decide (r = r')) as [<-|Hne].
      * right. exists m, new. by rewrite lookup_insert_eq.
      * rewrite lookup_insert_ne by done. apply Hinv.
    + intros r' Hd. destruct (decide (r = r')) as [<-|Hne]; [done|].
      intros m1 Hm1 Hh1. destruct (Hd m1 Hm1 Hh1) as (m' & ? & ?).
      exists m'. by rewrite lookup_insert_ne.
  - injection H as <-. split; [done|]. split; [|done].
    intros m1 Hm1 Hh1.
    destruct (Hinv r) as [Heq|(m & m' & Hm0 & Hmh & Hann & Hm')].
    + exfalso. apply Hh. rewrite Heq in Hr.
      pose proof (eq_trans (eq_sym Hr) Hm1) as He. by injection He as ->.
    + pose proof (eq_trans (eq_sym Hm0) Hm1) as He. injection He as <-.
      by exists m'.
Qed.

Lemma reconcile_annotates limit : forall items processed seen σ out σ',
  reconcile float_accepts limit items processed seen σ = Some (out, σ') ->
  touched_only_by_annotation σ ->
  Forall (fun p => annotation_done σ p.2) processed ->
  touched_only_by_annotation σ'
  /\ Forall (fun p => annotation_done σ' p.2) out
  /\ forall p, p ∈ out -> p ∈ processed \/ p ∈ items.
Proof.
  induction items as [|[doc r] items IH]; intros processed seen σ out σ' H Hinv Hd;
    simpl in H.
  - simplify_eq. split; [done|]. split; [done|]. by left.
  - case_decide as Hseen; simpl in H.
    + destruct (limit <=? _)%Z.
      * simplify_eq. split; [done|]. split; [done|]. by left.
      * destruct (IH _ _ _ _ _ H Hinv Hd) as (? & ? & Hsub).
        split; [done|]. split; [done|]. intros p Hp.
        destruct (Hsub p Hp); [by left|right; by right].
    + destruct (annotate float_accepts σ r) as [σ1|] eqn:Hσ1; [|done].
      simpl in H.
      destruct (annotate_step _ _ _ Hinv Hσ1) as (Hinv1 & Hdone & Hmono).
      assert (Forall (fun p => annotation_done σ1 p.2) (processed ++ [(doc, r)]))
        as Hd1.
      { apply Forall_app. split.
        - eapply Forall_impl; [exact Hd|]. intros p. apply Hmono.
        - by constructor. }
      destruct (limit <=? _)%Z.
      * simplify_eq. split; [done|]. split; [done|]. intros p Hp.
        apply elem_of_app in Hp as [?|Hp]; [by left|].
        apply list_elem_of_singleton in Hp as ->. right. by left.
      * destruct (IH _ _ _ _ _ H Hinv1 Hd1) as (? & ? & Hsub).
        split; [done|]. split; [done|]. intros p Hp.
        destruct (Hsub p Hp) as [Hp'|Hp']; [|right; by right].
        apply elem_of_app in Hp' as [?|Hp']; [by left|].
        apply list_elem_of_singleton in Hp' as ->. right. by left.
Qed.
End Annotation.

(** C10: the reconciler writes into the metadata records it was given.
    Every retained pair is a pair of the raw envelope, with the same
    reference; when its [has_metrics] flag is 'true', the record behind that
    reference holds, afterwards, what it held before with the field
    [metrics_summary] set to the summary of its two counts.  No record of
    the store changes in any other field, and no record appears. *)
Theorem process_results_annotates_in_place (float_accepts : string -> bool)
    (σ : store) (results : envelope) (limit : Z) (out : envelope) (σ' : store) :
  _process_results float_accepts σ results limit = Some (out, σ') ->
  (forall doc r, (doc, r) ∈ pairs out ->
     (doc, r) ∈ pairs results
     /\ forall m, σ !! r = Some m -> m !! "has_metrics" = Some (MStr "true") ->
          exists n1 n2,
            count_floats float_accepts m "currency_amounts" = Some n1
            /\ count_floats float_accepts m "percentages" = Some n2
            /\ σ' !! r
               = Some (<["metrics_summary" := MStr (summary_text n1 n2)]> m))
  /\ (forall r m, σ !! r = Some m ->
        exists m', σ' !! r = Some m'
          /\ forall k, k <> "metrics_summary" -> m' !! k = m !! k)
  /\ (forall r, σ !! r = None -> σ' !! r = None).
Proof.
  intros H. apply process_results_kept in H as (kept & -> & Hpairs & Hrun).
  rewrite Hpairs.
  assert (touched_only_by_annotation float_accepts σ σ'
          /\ Forall (fun p => annotation_done float_accepts σ σ' p.2) kept
          /\ forall p, p ∈ kept -> p ∈ pairs results) as (Hinv & Hdone & Hsub).
  { destruct Hrun as [(_ & -> & ->)|Hrun].
    - split; [by left|]. split; [done|]. by intros p ?%elem_of_nil.
    - eapply (reconcile_annotates float_accepts σ) in Hrun as (? & ? & Hsub);
        [|by left|done].
      split; [done|]. split; [done|]. intros p Hp.
      destruct (Hsub p Hp) as [?%elem_of_nil|?]; done. }
  split; [|split].
  - intros doc r Hin. split; [by apply Hsub|]. intros m Hm Hh.
    rewrite Forall_forall in Hdone.
    destruct (Hdone (doc, r) Hin m Hm Hh) as (m' & (n1 & n2 & ? & ? & ->) & ?).
    by exists n1, n2.
  - intros r m Hm. destruct (Hinv r) as [Heq|(m0 & m' & Hm0 & _ & Hann & Hm')].
    + exists m. split; [by rewrite Heq|done].
    + pose proof (eq_trans (eq_sym Hm0) Hm) as He. injection He as ->.
      exists m'. split; [done|]. intros k Hk.
      destruct Hann as (n1 & n2 & _ & _ & ->). by rewrite lookup_insert_ne.
  - intros r Hr. destruct (Hinv r) as [Heq|(m0 & m' & Hm0 & _)].
    + by rewrite Heq.
    + pose proof (eq_trans (eq_sym Hm0) Hr). done.
Qed.


Lemma process_results_annotates_in_place_witness :
  let m : gmap string mval :=
    {[ "has_metrics" := MStr "true"; "currency_amounts" := MStr "1500000.0,2.5";
       "percentages" := MStr ""; "ticker" := MStr "AAPL" ]} in
  let σ : store := {[ 0 := m; 1 := ∅ ]} in
  let results :=
    Envelope [["Revenue grew."; "Revenue grew."; "Costs fell."]] [[0; 1; 1]] in
  let out := Envelope [["Revenue grew."; "Costs fell."]] [[0; 1]] in
  let σ' : store :=
    <[0 := <["metrics_summary" :=
               MStr "Found 2 currency amounts and 0 percentage values"]> m]> σ in
  _process_results (fun _ => true) σ results 5 = Some (out, σ')
  /\ (exists n1 n2,
        σ' !! 0 = Some (<["metrics_summary" := MStr (summary_text n1 n2)]> m))
  /\ (exists m', σ' !! 0 = Some m' /\ m' !! "ticker" = m !! "ticker").
Proof.
  intros m σ results out σ'.
  assert (_process_results (fun _ => true) σ results 5 = Some (out, σ')) as H
    by (vm_cast_no_check (eq_refl (Some (out, σ')))).
  split; [exact H|].
  destruct (process_results_annotates_in_place _ _ _ _ _ _ H)
    as (Hkept & Hframe & _).
  split.
  - destruct (Hkept "Revenue grew." 0) as (_ & Hm); [by left|].
    destruct (Hm m) as (n1 & n2 & _ & _ & Heq);
      [apply lookup_insert_eq|apply lookup_insert_eq|].
    by exists n1, n2.
  - destruct (Hframe 0 m) as (m' & Hm' & Hk); [apply lookup_insert_eq|].
    exists m'. split; [done|]. by apply Hk.
Defined.

(** * Further properties *)

(** ** Further properties of the classifier *)

Lemma section_patterns_tags t r :
  In (t, r) section_patterns -> t <> "other" /\ In t section_tags.
Proof.
  intros H. simpl in H.
  repeat (destruct H as [H|H]; [injection H as <- <-; split; [done|simpl; tauto]|]).
  done.
Qed.

Lemma identify_section_in_tags line : In (_identify_section line) section_tags.
Proof.
  unfold _identify_section.
  destruct (List.find _ section_patterns) as [[t r]|] eqn:Hf; [|simpl; tauto].
  apply find_some in Hf as [Hin _]. by apply (section_patterns_tags t r).
Qed.

(** X1: [_identify_section] returns one of the six tags [risk_factors],
    [mda], [business], [financial_statements], [market_risk] and [other];
    it returns [other] exactly when no pattern of [section_patterns] has a
    match anywhere in the line, letter case ignored. *)
Theorem identify_section_other_iff (line : string) :
  In (_identify_section line) section_tags
  /\ (_identify_section line = "other" <->
      forall t r, In (t, r) section_patterns -> ~ occurs true r line).
Proof.
  unfold _identify_section.
  destruct (List.find _ section_patterns) as [[t r]|] eqn:Hf.
  - apply find_some in Hf as [Hin Hs]. simpl in Hs.
    destruct (section_patterns_tags t r Hin) as [Hne Htag].
    split; [done|]. split; [done|]. intros Hnone. exfalso.
    apply (Hnone t r Hin). by apply ReFacts.search_occurs.
  - split; [simpl; tauto|]. split; [|done]. intros _ t r Hin Hocc.
    apply ReFacts.search_occurs in Hocc.
    pose proof (find_none _ _ Hf (t, r) Hin) as Hn. simpl in Hn. congruence.
Qed.

Lemma occurs_optional_prefix ic p r s :
  occurs ic (Cat (Opt p) r) s <-> occurs ic r s.
Proof.
  split.
  - intros (pre & mid & post & -> & Hm).
    inversion Hm as [| | |? ? a b Ha Hb| | | | |]; subst.
    exists (pre +:+ a), b, post. split; [|done].
    by rewrite !str_app_assoc.
  - intros (pre & mid & post & -> & Hm).
    exists pre, mid, post. split; [done|].
    rewrite <-(str_app_nil_l mid). constructor; [|done].
    apply M_alt_r. constructor.
Qed.

Lemma search_optional_prefix ic p r s :
  Re.search ic (Cat (Opt p) r) s = Re.search ic r s.
Proof.
  destruct (Re.search ic r s) eqn:H.
  - by apply ReFacts.search_occurs, occurs_optional_prefix, ReFacts.search_occurs.
  - destruct (Re.search ic (Cat (Opt p) r) s) eqn:H'; [|done].
    apply ReFacts.search_occurs, occurs_optional_prefix, ReFacts.search_occurs in H'.
    congruence.
Qed.

Lemma find_ext {A} (f g : A -> bool) l :
  Forall (fun x => f x = g x) l -> List.find f l = List.find g l.
Proof. induction 1 as [|x l Hx _ IH]; [done|]. simpl. by rewrite Hx, IH. Qed.

Lemma find_map_snd {A B C} (h : B -> C) (f : C -> bool) (l : list (A * B)) :
  List.find (fun sp => f (snd sp)) (map (fun sp => (fst sp, h (snd sp))) l)
  = (fun sp => (fst sp, h (snd sp))) <$> List.find (fun sp => f (h (snd sp))) l.
Proof.
  induction l as [|[a b] l IH]; [done|]. simpl. destruct (f (h b)); [done|apply IH].
Qed.

(** X2: the optional item prefix of the section patterns has no
    influence on the classification.  [_identify_section] gives the tag of
    the first entry of the table whose phrase alone, without the prefix,
    is found in the line. *)
Theorem identify_section_ignores_item_prefix (line : string) :
  _identify_section line
  = match List.find (fun sp => Re.search true (snd sp) line) phrase_patterns with
    | Some (section_type, _) => section_type
    | None => "other"
    end.
Proof.
  unfold _identify_section, phrase_patterns.
  rewrite (find_map_snd drop_optional_prefix (fun r => Re.search true r line)).
  rewrite (find_ext (fun sp => Re.search true (snd sp) line)
             (fun sp => Re.search true (drop_optional_prefix (snd sp)) line)).
  - by destruct (List.find _ section_patterns) as [[t r]|].
  - unfold section_patterns. repeat constructor; apply search_optional_prefix.
Qed.

Lemma phrase_patterns_eq :
  phrase_patterns
  = [ ("risk_factors", seq [lit "Risk"; Star ws; lit "Factors"]);
      ("mda", seq [lit "Management"; Opt (Lit "'"); Opt (Lit "s"); Star ws;
                   lit "Discussion"; Star ws; lit "and"; Star ws; lit "Analysis"]);
      ("business", seq [lit "Business"]);
      ("financial_statements", seq [lit "Financial"; Star ws; lit "Statements"]);
      ("market_risk",
        seq [lit "Quantitative"; Star ws; lit "and"; Star ws;
             lit "Qualitative"; Star ws; lit "Disclosures"; Star ws;
             Cls (fun c => Ascii.eqb c "A" || Ascii.eqb c "a"); lit "bout"; Star ws;
             lit "Market"; Star ws; lit "Risk"]) ].
Proof. reflexivity. Qed.

(** ** Letter case *)

Lemma lower_idem x : lower (lower x) = lower x.
Proof. by destruct x as [[] [] [] [] [] [] [] []]. Qed.

Lemma case_blind_class p :
  case_blind (Cls p) = true -> forall x, p (lower x) = p x.
Proof.
  cbn [case_blind]. rewrite forallb_forall. intros H x.
  specialize (H (nat_of_ascii x)). rewrite ascii_nat_embedding in H.
  apply Bool.eqb_prop, H. apply in_seq.
  pose proof (nat_ascii_bounded x). lia.
Qed.

Lemma str_map_app f a b : str_map f (a +:+ b) = str_map f a +:+ str_map f b.
Proof.
  induction a as [|x a IH]; [done|]. rewrite str_app_cons. cbn [str_map].
  by rewrite IH.
Qed.

Lemma str_map_eq_app f t : forall a b,
  str_map f t = a +:+ b ->
  exists t1 t2, t = t1 +:+ t2 /\ str_map f t1 = a /\ str_map f t2 = b.
Proof.
  induction t as [|x t IH]; intros a b H.
  - destruct a; [|done]. destruct b; [|done]. by exists "", "".
  - destruct a as [|y a].
    + exists "", (String x t). by rewrite str_app_nil_l in H.
    + rewrite str_app_cons in H. cbn [str_map] in H. injection H as Hx Ht.
      apply IH in Ht as (t1 & t2 & -> & <- & <-).
      exists (String x t1), t2. cbn [str_map]. by rewrite Hx.
Qed.

Lemma str_map_lower_idem s : str_map lower (str_map lower s) = str_map lower s.
Proof.
  induction s as [|x s IH]; [done|]. cbn [str_map]. by rewrite lower_idem, IH.
Qed.

(** Whether a text matches depends on the text up to letter case only. *)
Lemma matches_case r s :
  matches true r s -> case_blind r = true ->
  forall t, str_map lower t = str_map lower s -> matches true r t.
Proof.
  induction 1 as [|c x Hc|p x Hp|r1 r2 s1 s2 _ IH1 _ IH2|r1 r2 s _ IH|r1 r2 s _ IH
                 | r | r s1 s2 Hne _ IH1 _ IH2 | n r s _ IH]; intros Hb t Ht.
  - destruct t; [constructor|done].
  - destruct t as [|y [|? ?]]; [done| |done]. cbn [str_map] in Ht.
    injection Ht as Hy. constructor. unfold lit_match in *. by rewrite Hy.
  - destruct t as [|y [|? ?]]; [done| |done]. cbn [str_map] in Ht.
    injection Ht as Hy. constructor.
    by rewrite <-(case_blind_class p Hb y), Hy, (case_blind_class p Hb x).
  - cbn [case_blind] in Hb. apply andb_true_iff in Hb as [Hb1 Hb2].
    rewrite str_map_app in Ht.
    apply str_map_eq_app in Ht as (t1 & t2 & -> & Ht1 & Ht2).
    constructor; [by apply IH1|by apply IH2].
  - cbn [case_blind] in Hb. apply andb_true_iff in Hb as [Hb1 Hb2].
    apply M_alt_l. by apply IH.
  - cbn [case_blind] in Hb. apply andb_true_iff in Hb as [Hb1 Hb2].
    apply M_alt_r. by apply IH.
  - destruct t; [constructor|done].
  - rewrite str_map_app in Ht.
    apply str_map_eq_app in Ht as (t1 & t2 & -> & Ht1 & Ht2).
    apply M_star_cons; [|by apply IH1|by apply IH2].
    intros ->. by destruct s1.
  - constructor. by apply IH.
Qed.

Lemma occurs_case r s t :
  case_blind r = true -> str_map lower t = str_map lower s ->
  occurs true r s -> occurs true r t.
Proof.
  intros Hb Ht (pre & mid & post & -> & Hm).
  rewrite !str_map_app in Ht.
  apply str_map_eq_app in Ht as (t1 & t23 & -> & Ht1 & Ht23).
  apply str_map_eq_app in Ht23 as (t2 & t3 & -> & Ht2 & Ht3).
  exists t1, t2, t3. split; [done|]. by apply (matches_case r mid).
Qed.

Lemma search_case r s t :
  case_blind r = true -> str_map lower t = str_map lower s ->
  Re.search true r t = Re.search true r s.
Proof.
  intros Hb Ht.
  destruct (Re.search true r t) eqn:H1, (Re.search true r s) eqn:H2; try done.
  - apply ReFacts.search_occurs, (occurs_case r t s Hb) in H1; [|done].
    apply ReFacts.search_occurs in H1. congruence.
  - apply ReFacts.search_occurs, (occurs_case r s t Hb) in H2; [|done].
    apply ReFacts.search_occurs in H2. congruence.
Qed.

(** X21: the classification ignores letter case.  Two lines that are
    equal once their capital letters A to Z are made small get the same
    tag. *)
Theorem identify_section_ignores_case (line line' : string) :
  str_map lower line = str_map lower line' ->
  _identify_section line = _identify_section line'.
Proof.
  intros H. unfold _identify_section.
  rewrite (find_ext (fun sp => Re.search true (snd sp) line)
                    (fun sp => Re.search true (snd sp) line') section_patterns);
    [done|].
  assert (Forall (fun sp => case_blind (snd sp) = true) section_patterns) as Hb
    by (repeat constructor).
  eapply Forall_impl; [exact Hb|]. intros [t r] Hr. by apply search_case.
Qed.

Lemma identify_section_ignores_case_witness :
  _identify_section "ITEM 1A. RISK FACTORS" = _identify_section "Item 1a. Risk Factors"
  /\ _identify_section "ITEM 1A. RISK FACTORS" = "risk_factors".
Proof.
  split; [|by vm_compute].
  apply (identify_section_ignores_case "ITEM 1A. RISK FACTORS" "Item 1a. Risk Factors").
  reflexivity.
Defined.

(** ** Further properties of the segmenter *)

Lemma str_join_split text : str_join NL (str_split nl text) = text.
Proof.
  pose proof (appended_split text) as H.
  destruct (str_split nl text) as [|l ls] eqn:Hs.
  - by destruct (str_split_nonempty nl text).
  - rewrite str_join_appended. simpl in H. unfold NL in H at 1.
    rewrite str_app_cons, str_app_nil_l in H.
    change (NL +:+ text) with (String nl text) in H. by injection H.
Qed.

Lemma str_join_snoc sep l x :
  l <> [] -> str_join sep (l ++ [x]) = str_join sep l +:+ sep +:+ x.
Proof.
  induction l as [|a l IH]; [done|]. intros _.
  destruct l as [|b l]; [done|].
  change (str_join sep ((a :: b :: l) ++ [x]))
    with (a +:+ sep +:+ str_join sep ((b :: l) ++ [x])).
  rewrite IH by done.
  change (str_join sep (a :: b :: l)) with (a +:+ sep +:+ str_join sep (b :: l)).
  by rewrite !str_app_assoc.
Qed.

Lemma str_join_snoc_app sep l x y :
  str_join sep (l ++ [x +:+ y]) = str_join sep (l ++ [x]) +:+ y.
Proof.
  destruct l as [|a l]; [done|].
  rewrite !str_join_snoc by done. by rewrite !str_app_assoc.
Qed.

Lemma emit_nonempty st :
  str_nonempty (current_text st) = true ->
  emit st = sections st ++ [(current_text st, current_type st)].
Proof. unfold emit. by intros ->. Qed.

(** Texts of the spans, joined by newlines: the lines read so far. *)
Lemma joined_spans_from lines : forall st,
  str_nonempty (current_text st) = true ->
  str_join NL (map fst (emit (fold_left seg_step lines st)))
  = str_join NL (map fst (emit st)) +:+ appended lines.
Proof.
  induction lines as [|line lines IH]; intros st Hne.
  - simpl. by rewrite str_app_nil_r.
  - simpl fold_left. destruct (is_header line) eqn:Hh.
    + rewrite (seg_step_header _ _ Hh), IH
        by (by apply str_nonempty_true, is_header_nonempty).
      rewrite (emit_nonempty (SegState _ _ _))
        by (by apply str_nonempty_true, is_header_nonempty).
      cbn [sections current_text current_type].
      rewrite map_app. cbn [map fst]. rewrite str_join_snoc.
      * simpl appended. by rewrite !str_app_assoc.
      * rewrite (emit_nonempty st Hne), map_app. by destruct (map fst (sections st)).
    + rewrite (seg_step_other _ _ Hh), IH by (by apply str_nonempty_app_l).
      rewrite (emit_nonempty (SegState _ _ _)) by (by apply str_nonempty_app_l).
      rewrite (emit_nonempty st Hne).
      cbn [sections current_text current_type].
      rewrite !map_app. cbn [map fst]. rewrite str_join_snoc_app.
      simpl appended. by rewrite !str_app_assoc.
Qed.

(** X3: the spans of [_split_into_sections] hold the whole text, in
    order.  Joined with newlines, the span texts give back the input when
    its first line is a header, and the input after one newline
    otherwise. *)
Theorem split_into_sections_preserves_text (text : string) :
  str_join NL (map fst (_split_into_sections text))
  = if is_header (hd "" (str_split nl text)) then text else NL +:+ text.
Proof.
  unfold _split_into_sections, spans_of_lines.
  pose proof (str_join_split text) as Hjoin.
  destruct (str_split nl text) as [|l ls] eqn:Hs.
  { by destruct (str_split_nonempty nl text). }
  rewrite str_join_appended in Hjoin.
  simpl fold_left. simpl hd. destruct (is_header l) eqn:Hl.
  - rewrite (seg_step_header _ _ Hl), joined_spans_from
      by (by apply str_nonempty_true, is_header_nonempty).
    rewrite (emit_nonempty (SegState _ _ _))
      by (by apply str_nonempty_true, is_header_nonempty).
    done.
  - rewrite (seg_step_other _ _ Hl), joined_spans_from by done.
    rewrite (emit_nonempty (SegState _ _ _)) by done.
    simpl. rewrite ?str_app_nil_l, !str_app_assoc. by rewrite Hjoin.
Qed.

(** The last header line of a list of lines, if there is one. *)
Lemma last_header_split lines :
  Forall (fun line => is_header line = false) lines
  \/ exists before h body,
       lines = before ++ h :: body /\ is_header h = true
       /\ Forall (fun line => is_header line = false) body.
Proof.
  induction lines as [|x lines IH] using rev_ind; [by left|].
  destruct (is_header x) eqn:Hx.
  - right. exists lines, x, []. by repeat split.
  - destruct IH as [IH|(before & h & body & -> & Hh & Hb)].
    + left. apply Forall_app. by split; [|constructor].
    + right. exists before, h, (body ++ [x]). rewrite <-app_assoc. simpl.
      split; [done|]. split; [done|]. apply Forall_app. by split; [|constructor].
Qed.

Lemma spans_of_lines_header before h body :
  is_header h = true ->
  Forall (fun line => is_header line = false) body ->
  spans_of_lines (before ++ h :: body)
  = spans_of_lines before ++ [(str_join NL (h :: body), _identify_section h)].
Proof.
  intros Hh Hbody. unfold spans_of_lines.
  rewrite fold_left_app. simpl fold_left.
  rewrite (seg_step_header _ _ Hh), fold_seg_step_other by done.
  rewrite str_join_appended.
  unfold emit at 1. cbn [current_text sections current_type].
  by rewrite str_nonempty_app_l by (by apply str_nonempty_true, is_header_nonempty).
Qed.

Lemma spans_of_lines_no_header lines :
  lines <> [] ->
  Forall (fun line => is_header line = false) lines ->
  spans_of_lines lines = [(appended lines, "other")].
Proof.
  intros Hne H. unfold spans_of_lines. rewrite fold_seg_step_other by done.
  unfold emit. simpl. destruct lines as [|l ls]; [done|]. done.
Qed.

Lemma spans_structure n : forall lines, length lines <= n ->
  exists first rest,
    spans_of_lines lines = first ++ rest
    /\ Forall header_span rest
    /\ (first = [] \/ exists sp, first = [sp] /\ leading_span sp).
Proof.
  induction n as [|n IH]; intros lines Hlen.
  - destruct lines; [|simpl in Hlen; lia]. exists [], []. by repeat split; [|left].
  - destruct (last_header_split lines) as [Hno|(before & h & body & -> & Hh & Hb)].
    + destruct lines as [|l ls].
      * exists [], []. by repeat split; [|left].
      * exists [(appended (l :: ls), "other")], [].
        rewrite spans_of_lines_no_header by done.
        split; [done|]. split; [done|]. right. eexists. split; [done|].
        by exists (l :: ls).
    + rewrite spans_of_lines_header by done.
      destruct (IH before) as (first & rest & -> & Hrest & Hfirst).
      { rewrite length_app in Hlen. simpl in Hlen. lia. }
      exists first, (rest ++ [(str_join NL (h :: body), _identify_section h)]).
      split; [by rewrite app_assoc|]. split; [|done].
      apply Forall_app. split; [done|]. constructor; [|done].
      by exists h, body.
Qed.




(** Every tag of a span is one of the six section tags. *)
Lemma split_into_sections_tags text :
  Forall (fun sp => In (snd sp) section_tags) (_split_into_sections text).
Proof.
  unfold _split_into_sections.
  destruct (spans_structure _ (str_split nl text) (le_n _))
    as (first & rest & -> & Hrest & Hfirst).
  apply Forall_app. split.
  - destruct Hfirst as [->|(sp & -> & (body & _ & _ & ->))]; [done|].
    constructor; [|done]. simpl. tauto.
  - eapply Forall_impl; [exact Hrest|]. intros sp (h & body & _ & _ & ->).
    simpl. apply identify_section_in_tags.
Qed.

(** ** Further properties of the metric extractor *)

Lemma contains_char_app c a b :
  contains_char c (a +:+ b) = contains_char c a || contains_char c b.
Proof.
  unfold contains_char. induction a as [|x a IH]; [done|].
  rewrite str_app_cons. simpl. by rewrite IH, orb_assoc.
Qed.

(** Every match reported by [finditer] is a match at some offset of the
    subject. *)
Lemma finditer_from_suffix ic r n : forall s g,
  g ∈ finditer_from n ic r s ->
  exists pre s' rest, s = pre +:+ s' /\ match_at ic r s' = Some (rest, g).
Proof.
  induction n as [|n IH]; intros s g; simpl; [by intros ?%elem_of_nil|].
  assert (g ∈ match s with "" => [] | String _ s' => finditer_from n ic r s' end ->
          exists pre s' rest, s = pre +:+ s' /\ match_at ic r s' = Some (rest, g))
    as Hskip.
  { destruct s as [|c s]; [by intros ?%elem_of_nil|].
    intros (pre & s' & rest & -> & Hm)%IH.
    exists (String c pre), s', rest. by rewrite str_app_cons. }
  destruct (match_at ic r s) as [[rest g0]|] eqn:Hm; [|done].
  intros [->|Hin]%elem_of_cons.
  { exists "", s, rest. by rewrite str_app_nil_l. }
  destruct (_ <? _); [|by apply Hskip].
  apply IH in Hin as (pre & s' & rest' & -> & Hm').
  apply ReFacts.match_at_sound in Hm as (m & -> & _).
  exists (m +:+ pre), s', rest'. by rewrite str_app_assoc.
Qed.

Lemma currency_match_dollar s rest g :
  match_at false currency_pattern s = Some (rest, g) -> contains_char "$" s = true.
Proof.
  unfold match_at, currency_pattern. intros H. cbn [seq fold_right] in H.
  apply ReFacts.run_cat_keeps in H as (a & s1 & -> & Ha & _); [|reflexivity].
  apply matches_Lit_false in Ha as ->. done.
Qed.

Lemma percentage_match_percent s rest g :
  match_at false percentage_pattern s = Some (rest, g) -> contains_char "%" s = true.
Proof.
  unfold match_at, percentage_pattern. intros H. cbn [seq fold_right] in H.
  apply ReFacts.run_cat_group in H as (m1 & s1 & -> & _ & H); [|reflexivity].
  apply ReFacts.run_cat_keeps in H as (w & s2 & -> & _ & H); [|reflexivity].
  apply ReFacts.run_cat_keeps in H as (a & s3 & -> & Ha & _); [|reflexivity].
  apply matches_Lit_false in Ha as ->.
  rewrite !contains_char_app. simpl. by rewrite !orb_true_r.
Qed.

Lemma finditer_nil_without ic r c text :
  (forall s rest g, match_at ic r s = Some (rest, g) -> contains_char c s = true) ->
  contains_char c text = false -> finditer ic r text = [].
Proof.
  intros Hc Hno. destruct (finditer ic r text) as [|g gs] eqn:Hf; [done|].
  assert (g ∈ finditer ic r text) as Hin by (rewrite Hf; by left).
  apply finditer_from_suffix in Hin as (pre & s' & rest & -> & Hm).
  apply Hc in Hm. rewrite contains_char_app, Hm, orb_true_r in Hno. done.
Qed.

(** X5: [_extract_metrics] raises on no text.  Every match of the
    currency pattern and of the percentage pattern converts to a number,
    so each list has one element per match of its pattern. *)
Theorem extract_metrics_never_raises (text : string) :
  exists m, _extract_metrics text = Some m
    /\ length (currency_amounts m) = length (finditer false currency_pattern text)
    /\ length (percentages m) = length (finditer false percentage_pattern text).
Proof.
  destruct (extract_metrics_total text) as [m Hm]. exists m. split; [done|].
  unfold _extract_metrics in Hm.
  destruct (mapM currency_amount _) as [cur|] eqn:Hc; [|done].
  destruct (mapM percentage_value _) as [pct|] eqn:Hp; [|done].
  simpl in Hm. injection Hm as <-. simpl.
  apply mapM_Some, Forall2_length in Hc. apply mapM_Some, Forall2_length in Hp.
  by rewrite Hc, Hp.
Qed.

(** X6: a text without dollar sign yields no currency amount, and a
    text without percent sign yields no percentage. *)
Theorem extract_metrics_needs_sign (text : string) (m : metrics) :
  _extract_metrics text = Some m ->
  (contains_char "$" text = false -> currency_amounts m = [])
  /\ (contains_char "%" text = false -> percentages m = []).
Proof.
  unfold _extract_metrics. intros Hm.
  destruct (mapM currency_amount _) as [cur|] eqn:Hc; [|done].
  destruct (mapM percentage_value _) as [pct|] eqn:Hp; [|done].
  simpl in Hm. injection Hm as <-. simpl. split; intros Hno.
  - rewrite (finditer_nil_without _ _ "$" text currency_match_dollar Hno) in Hc.
    simpl in Hc. by injection Hc.
  - rewrite (finditer_nil_without _ _ "%" text percentage_match_percent Hno) in Hp.
    simpl in Hp. by injection Hp.
Qed.

Lemma extract_metrics_needs_sign_witness :
  _extract_metrics "Revenue grew strongly." = Some (Metrics [] [])
  /\ _extract_metrics "Margin rose 3%" = Some (Metrics [] [Qmake 3 1]).
Proof.
  destruct (_extract_metrics "Revenue grew strongly.") as [m1|] eqn:H1;
    [|by vm_compute in H1].
  destruct (_extract_metrics "Margin rose 3%") as [m2|] eqn:H2;
    [|by vm_compute in H2].
  destruct (extract_metrics_needs_sign _ _ H1) as [Ha Hb].
  destruct (extract_metrics_needs_sign _ _ H2) as [Hc _].
  pose proof (Ha eq_refl). pose proof (Hb eq_refl). pose proof (Hc eq_refl).
  destruct m1, m2; simpl in *; subst. split; [done|].
  vm_compute in H2. by injection H2 as <-.
Defined.

(** Joining with a separator and splitting again gives the list back, when
    no element is empty or contains the separator. *)
Lemma str_split_no_sep c s : contains_char c s = false -> str_split c s = [s].
Proof.
  unfold contains_char. induction s as [|x s IH]; [done|]. simpl.
  rewrite Ascii.eqb_sym. intros [-> Hs]%orb_false_iff. by rewrite IH.
Qed.

Lemma str_split_app_sep c a b :
  contains_char c a = false ->
  str_split c (a +:+ String c b) = a :: str_split c b.
Proof.
  unfold contains_char. induction a as [|x a IH]; intros Ha.
  - rewrite str_app_nil_l. simpl. by rewrite Ascii.eqb_refl.
  - rewrite str_app_cons. simpl in *. rewrite Ascii.eqb_sym in Ha.
    apply orb_false_iff in Ha as [-> Ha]. by rewrite IH.
Qed.

Lemma split_join_nonempty c (l : list string) :
  Forall (fun x => x <> "" /\ contains_char c x = false) l ->
  List.filter str_nonempty (str_split c (str_join (String c "") l)) = l.
Proof.
  induction 1 as [|x l [Hne Hx] Hl IH]; [done|].
  destruct l as [|y l].
  - simpl. rewrite str_split_no_sep by done. simpl. by destruct x.
  - change (str_join (String c "") (x :: y :: l))
      with (x +:+ String c "" +:+ str_join (String c "") (y :: l)).
    rewrite str_app_cons, str_app_nil_l, str_split_app_sep by done.
    remember (str_split c (str_join (String c "") (y :: l))) as parts.
    destruct x; [done|]. simpl. by rewrite IH.
Qed.

(** ** Signs *)

Lemma digits_value_nonneg s : (0 <= digits_value s)%Z.
Proof.
  unfold digits_value.
  assert (forall l acc, (0 <= acc)%Z ->
            (0 <= fold_left (fun acc c => 10 * acc + Z.of_nat (code c - 48))
                            l acc)%Z) as H.
  { induction l as [|c l IH]; intros acc Hacc; [done|]. simpl. apply IH. lia. }
  by apply H.
Qed.

Lemma float_of_decimal_nonneg s q : float_of_decimal s = Some q -> (0 <= q)%Q.
Proof.
  unfold float_of_decimal.
  destruct (str_split "." s) as [|i [|f [|? ?]]]; [done| | |done].
  - destruct (all_digits i); [|done]. intros [= <-].
    unfold Qle. simpl. pose proof (digits_value_nonneg i). lia.
  - destruct (all_digits i && all_digits f); [|done]. intros [= <-].
    rewrite Qred_correct. unfold Qle. simpl.
    pose proof (digits_value_nonneg (i +:+ f)). lia.
Qed.

Lemma multiplier_pos w q : multiplier w = Some q -> (0 <= q)%Q.
Proof.
  unfold multiplier.
  repeat (destruct (String.eqb w _); [by intros [= <-]|]). done.
Qed.

Lemma currency_amount_nonneg g q : currency_amount g = Some q -> (0 <= q)%Q.
Proof.
  unfold currency_amount.
  destruct (group g 1) as [g1|]; [|done]. simpl.
  destruct (float_of_decimal (str_remove "," g1)) as [amount|] eqn:Ha; [|done].
  simpl. apply float_of_decimal_nonneg in Ha.
  destruct (group g 2) as [w|]; [|by intros [= <-]].
  destruct (str_nonempty w); [|by intros [= <-]].
  destruct (multiplier w) as [mult|] eqn:Hm; [|done]. simpl. intros [= <-].
  apply multiplier_pos in Hm. rewrite Qred_correct. by apply Qmult_le_0_compat.
Qed.

Lemma percentage_value_nonneg g q : percentage_value g = Some q -> (0 <= q)%Q.
Proof.
  unfold percentage_value. destruct (group g 1) as [g1|]; [|done]. simpl.
  apply float_of_decimal_nonneg.
Qed.

Lemma mapM_Forall_out {A B} (f : A -> option B) (P : B -> Prop) l k :
  (forall x y, f x = Some y -> P y) -> mapM f l = Some k -> Forall P k.
Proof.
  intros Hf Hm. apply mapM_Some in Hm.
  induction Hm as [|x y l k Hxy _ IH]; constructor; eauto.
Qed.

(** X22: no extracted number is negative.  The patterns capture digits,
    separators and a decimal point only, so a minus sign in front of an
    amount or of a percentage is lost. *)
Theorem extract_metrics_nonnegative (text : string) :
  exists m, _extract_metrics text = Some m
    /\ Forall (fun q => (0 <= q)%Q) (currency_amounts m)
    /\ Forall (fun q => (0 <= q)%Q) (percentages m).
Proof.
  destruct (extract_metrics_total text) as [m Hm]. exists m. split; [done|].
  unfold _extract_metrics in Hm.
  destruct (mapM currency_amount _) as [cur|] eqn:Hc; [|done]. simpl in Hm.
  destruct (mapM percentage_value _) as [pct|] eqn:Hp; [|done]. simpl in Hm.
  injection Hm as <-. simpl. split.
  - eapply mapM_Forall_out; [apply currency_amount_nonneg|exact Hc].
  - eapply mapM_Forall_out; [apply percentage_value_nonneg|exact Hp].
Qed.

(** ** Cleaning *)

Section CleaningFacts.
Local Arguments is_space : simpl never.
Local Arguments disallowed : simpl never.

Lemma rev_app_app s1 : forall s2 s3,
  String.rev_app s1 (s2 +:+ s3) = String.rev_app s1 s2 +:+ s3.
Proof.
  induction s1 as [|a s1 IH]; intros s2 s3; simpl; [done|].
  apply (IH (String a s2)).
Qed.

Lemma rev_app_snoc s1 : forall s2 acc,
  String.rev_app (s1 +:+ s2) acc = String.rev_app s2 (String.rev_app s1 acc).
Proof. induction s1 as [|a s1 IH]; intros s2 acc; simpl; [done|]. apply IH. Qed.

Lemma str_rev_cons a s : String.rev (String a s) = String.rev s +:+ String a "".
Proof. unfold String.rev. simpl. apply (rev_app_app s "" (String a "")). Qed.

Lemma str_rev_snoc s a : String.rev (s +:+ String a "") = String a (String.rev s).
Proof. unfold String.rev. by rewrite rev_app_snoc. Qed.

Lemma str_nonempty_rev s : str_nonempty (String.rev s) = str_nonempty s.
Proof.
  destruct s as [|a s]; [done|]. rewrite str_rev_cons.
  by apply str_nonempty_app_r.
Qed.

Lemma str_lstrip_snoc y a :
  str_lstrip (y +:+ String a "")
  = if str_nonempty (str_lstrip y) then str_lstrip y +:+ String a ""
    else str_lstrip (String a "").
Proof.
  induction y as [|b y IH]; [done|]. rewrite str_app_cons. simpl.
  by destruct (is_space b).
Qed.

Lemma str_rstrip_cons a x :
  str_rstrip (String a x)
  = if str_nonempty (str_rstrip x) then String a (str_rstrip x)
    else if is_space a then "" else String a "".
Proof.
  unfold str_rstrip. rewrite str_rev_cons, str_lstrip_snoc, str_nonempty_rev.
  destruct (str_nonempty (str_lstrip (String.rev x))).
  - by rewrite str_rev_snoc.
  - simpl. by destruct (is_space a).
Qed.

Lemma str_rstrip_nonspace a x :
  is_space a = false -> str_rstrip (String a x) = String a (str_rstrip x).
Proof.
  intros Ha. rewrite str_rstrip_cons, Ha.
  destruct (str_rstrip x); done.
Qed.

(** *** The words of a text, from left to right *)

Lemma words_go_Some s : forall acc,
  str_words_go (Some acc) s
  = match words_cont s with
    | w :: rest => (String.rev acc +:+ w) :: rest
    | [] => []
    end.
Proof.
  unfold words_cont. induction s as [|a s IH]; intros acc; simpl.
  - by rewrite str_app_nil_r.
  - destruct (is_space a); simpl.
    + by rewrite str_app_nil_r.
    + rewrite (IH (String a acc)), (IH (String a "")).
      destruct (str_words_go (Some "") s) as [|w rest]; [done|].
      by rewrite str_rev_cons, str_app_assoc.
Qed.

Lemma words_cont_nil : words_cont "" = [""].
Proof. done. Qed.

Lemma words_cont_cons a s :
  words_cont (String a s)
  = if is_space a then "" :: str_words s
    else match words_cont s with
         | w :: rest => String a w :: rest
         | [] => []
         end.
Proof.
  unfold words_cont at 1. simpl. destruct (is_space a); [done|].
  by rewrite words_go_Some.
Qed.

Lemma str_words_cons a s :
  str_words (String a s)
  = if is_space a then str_words s
    else match words_cont s with
         | w :: rest => String a w :: rest
         | [] => []
         end.
Proof.
  unfold str_words at 1. simpl. destruct (is_space a); [done|].
  by rewrite words_go_Some.
Qed.

Lemma words_cont_nonempty s : words_cont s <> [].
Proof.
  induction s as [|a s IH]; [done|]. rewrite words_cont_cons.
  destruct (is_space a); [done|]. by destruct (words_cont s).
Qed.

Lemma str_words_of_cont s :
  str_words s = match words_cont s with
                | EmptyString :: rest => rest
                | l => l
                end.
Proof.
  destruct s as [|a s]; [done|]. rewrite str_words_cons, words_cont_cons.
  destruct (is_space a); [done|]. by destruct (words_cont s).
Qed.

Lemma str_words_nonspace a s :
  is_space a = false -> str_words (String a s) = words_cont (String a s).
Proof. intros Ha. by rewrite str_words_cons, words_cont_cons, Ha. Qed.

Lemma str_join_cons_char sep a w rest :
  str_join sep (String a w :: rest) = String a (str_join sep (w :: rest)).
Proof. by destruct rest. Qed.

Lemma str_join_cons_empty l :
  str_join " " ("" :: l) = match l with [] => "" | _ => String " " (str_join " " l) end.
Proof. by destruct l. Qed.

(** *** The four steps of [_clean_text] *)

Lemma sub_class p s :
  sub false (Cls p) " " s = str_map (fun c => if p c then " "%char else c) s.
Proof.
  unfold sub.
  assert (String.length s < S (String.length s)) as Hlen by lia.
  revert Hlen. generalize (S (String.length s)). intros fuel.
  revert s. induction fuel as [|fuel IH]; intros s Hlen; [lia|].
  destruct s as [|a s]; [done|]. simpl in Hlen.
  cbn [sub_from str_map]. unfold match_at. cbn [run].
  destruct (p a).
  - assert ((String.length s <? String.length (String a s)) = true) as ->
      by (apply Nat.ltb_lt; simpl; lia).
    simpl. rewrite IH by lia. done.
  - simpl. rewrite IH by lia. done.
Qed.

Lemma star_space n : forall s g,
  String.length s <= n ->
  star_loop (run (A := string * caps) false (Cls is_space))
            (fun s' g' => Some (s', g')) n s g
  = Some (str_lstrip s, g).
Proof.
  induction n as [|n IH]; intros s g Hlen.
  - destruct s; [done|simpl in Hlen; lia].
  - destruct s as [|b s]; [done|]. simpl in Hlen. cbn [star_loop run str_lstrip].
    destruct (is_space b); [|done].
    assert ((String.length s <? String.length (String b s)) = true) as ->
      by (apply Nat.ltb_lt; simpl; lia).
    rewrite IH by lia. done.
Qed.

Lemma str_lstrip_length s : String.length (str_lstrip s) <= String.length s.
Proof.
  induction s as [|a s IH]; [done|]. simpl. destruct (is_space a); simpl; lia.
Qed.

Lemma collapse_space a s :
  is_space a = true -> collapse (String a s) = String " " (collapse (str_lstrip s)).
Proof.
  intros Ha. revert a Ha. induction s as [|b s IH]; intros a Ha.
  - simpl. by rewrite Ha.
  - cbn [collapse str_lstrip]. rewrite Ha.
    destruct (is_space b) eqn:Hb; [|cbn [collapse]; by rewrite Hb].
    rewrite <-(IH b Hb). cbn [collapse]. by rewrite Hb.
Qed.

Lemma sub_spaces s : sub false (Plus ws) " " s = collapse s.
Proof.
  unfold sub, Plus, ws.
  assert (String.length s < S (String.length s)) as Hlen by lia.
  revert Hlen. generalize (S (String.length s)). intros fuel.
  revert s. induction fuel as [|fuel IH]; intros s Hlen; [lia|].
  destruct s as [|a s]; [done|]. simpl in Hlen.
  cbn [sub_from]. unfold match_at. cbn [run].
  destruct (is_space a) eqn:Ha.
  - rewrite star_space by lia.
    pose proof (str_lstrip_length s) as Hl.
    assert ((String.length (str_lstrip s) <? String.length (String a s)) = true) as ->
      by (apply Nat.ltb_lt; simpl; lia).
    rewrite IH by lia. by rewrite collapse_space.
  - rewrite IH by lia. cbn [collapse]. by rewrite Ha.
Qed.

Lemma str_lstrip_collapse s : str_lstrip (collapse s) = collapse (str_lstrip s).
Proof.
  induction s as [|a s IH]; [done|]. cbn [collapse str_lstrip].
  destruct (is_space a) eqn:Ha.
  - destruct s as [|b s]; [done|]. destruct (is_space b) eqn:Hb; [done|].
    cbn [str_lstrip]. change (is_space " ") with true. cbn iota. exact IH.
  - cbn [str_lstrip]. rewrite Ha. cbn [collapse]. by rewrite Ha.
Qed.

Lemma str_rstrip_collapse s :
  str_rstrip (collapse s) = str_join " " (words_cont s).
Proof.
  induction s as [|a s IH]; [done|]. rewrite words_cont_cons. cbn [collapse].
  destruct (is_space a) eqn:Ha.
  - destruct s as [|b s]; [done|]. destruct (is_space b) eqn:Hb.
    + rewrite IH, words_cont_cons, Hb, str_words_cons, Hb. done.
    + rewrite str_rstrip_cons, IH, str_words_nonspace by done.
      rewrite str_join_cons_empty.
      rewrite words_cont_cons, Hb.
      pose proof (words_cont_nonempty s) as Hne.
      destruct (words_cont s) as [|w rest]; [done|].
      rewrite str_join_cons_char. done.
  - rewrite str_rstrip_nonspace, IH by done.
    pose proof (words_cont_nonempty s) as Hne.
    destruct (words_cont s) as [|w rest]; [done|].
    by rewrite str_join_cons_char.
Qed.

Lemma str_words_lstrip s : str_words (str_lstrip s) = str_words s.
Proof.
  induction s as [|a s IH]; [done|]. cbn [str_lstrip].
  destruct (is_space a) eqn:Ha; [|done]. by rewrite str_words_cons, Ha.
Qed.

Lemma str_lstrip_head s :
  str_lstrip s = "" \/ exists a x, str_lstrip s = String a x /\ is_space a = false.
Proof.
  induction s as [|a s IH]; [by left|]. cbn [str_lstrip].
  destruct (is_space a) eqn:Ha; [done|]. right. by exists a, s.
Qed.

Lemma strip_collapse s : str_strip (collapse s) = str_join " " (str_words s).
Proof.
  change (str_strip (collapse s)) with (str_rstrip (str_lstrip (collapse s))).
  rewrite str_lstrip_collapse, str_rstrip_collapse, <-(str_words_lstrip s).
  destruct (str_lstrip_head s) as [->|(a & x & -> & Ha)]; [done|].
  by rewrite str_words_nonspace.
Qed.

(** *** Words after blanking *)

Section Blanking.
Variable f : ascii -> ascii.
Hypothesis f_space : forall c, is_space c = true -> is_space (f c) = true.

Lemma words_join_cont t :
  words_cont (str_map f (str_join " " (words_cont t))) = words_cont (str_map f t) ->
  str_words (str_map f (str_join " " (str_words t))) = str_words (str_map f t).
Proof.
  intros H. rewrite (str_words_of_cont (str_map f t)), <-H.
  rewrite <-str_words_of_cont. rewrite (str_words_of_cont t).
  destruct (words_cont t) as [|[|a w] rest]; [done| |done].
  rewrite str_join_cons_empty. destruct rest as [|w rest]; [done|].
  cbn [str_map]. by rewrite str_words_cons, f_space.
Qed.

Lemma words_cont_join t :
  words_cont (str_map f (str_join " " (words_cont t))) = words_cont (str_map f t).
Proof.
  induction t as [|a t IH]; [done|].
  pose proof (words_join_cont t IH) as HW.
  rewrite (words_cont_cons a t). destruct (is_space a) eqn:Ha.
  - cbn [str_map]. rewrite (words_cont_cons (f a)), f_space by done.
    rewrite str_join_cons_empty. rewrite <-HW.
    destruct (str_words t) as [|w rest]; [done|].
    cbn [str_map]. by rewrite words_cont_cons, f_space.
  - pose proof (words_cont_nonempty t) as Hne.
    destruct (words_cont t) as [|w rest] eqn:Hc; [done|].
    rewrite str_join_cons_char. cbn [str_map].
    rewrite !(words_cont_cons (f a)). rewrite IH.
    destruct (is_space (f a)); [|done].
    f_equal. rewrite !str_words_of_cont. by rewrite IH.
Qed.

Lemma words_join t :
  str_words (str_map f (str_join " " (str_words t))) = str_words (str_map f t).
Proof. apply words_join_cont, words_cont_join. Qed.
End Blanking.

Lemma blank_space c : is_space c = true -> is_space (blank c) = true.
Proof.
  intros Hc. unfold blank, disallowed. rewrite Hc.
  by rewrite orb_true_r.
Qed.

(** Cleaning in one pass: blank the disallowed characters, then join the
    words with single spaces. *)
Lemma clean_text_words text :
  _clean_text text = str_join " " (str_words (str_map blank text)).
Proof.
  unfold _clean_text. rewrite sub_class, sub_spaces, strip_collapse.
  fold blank. change (fun c => if disallowed c then " "%char else c) with blank.
  by rewrite (words_join blank blank_space).
Qed.

Lemma words_cont_forall (q : ascii -> bool) x :
  str_forallb (fun c => is_space c || q c) x = true ->
  (forall c, q c = true -> is_space c = false) ->
  Forall (fun w => str_forallb q w = true) (words_cont x).
Proof.
  intros Hx Hq. induction x as [|a x IH]; [by repeat constructor|].
  cbn [str_forallb] in Hx. apply andb_true_iff in Hx as [Ha Hx].
  specialize (IH Hx). rewrite words_cont_cons.
  destruct (is_space a) eqn:Hsp.
  - constructor; [done|]. rewrite str_words_of_cont.
    destruct (words_cont x) as [|[|b w] rest]; [done| |done].
    by apply Forall_cons in IH as [_ ?].
  - simpl in Ha. destruct (words_cont x) as [|w rest]; [done|].
    apply Forall_cons in IH as [Hw Hrest]. constructor; [|done].
    cbn [str_forallb]. by rewrite Ha, Hw.
Qed.

Lemma words_cont_tail_nonempty x : Forall (fun w => w <> "") (tail (words_cont x)).
Proof.
  induction x as [|a x IH]; [by constructor|]. rewrite words_cont_cons.
  destruct (is_space a).
  - cbn [tail]. rewrite str_words_of_cont.
    destruct (words_cont x) as [|[|b w] rest]; [done|done|].
    by constructor.
  - by destruct (words_cont x) as [|w rest].
Qed.

Lemma str_words_clean (q : ascii -> bool) x :
  str_forallb (fun c => is_space c || q c) x = true ->
  (forall c, q c = true -> is_space c = false) ->
  Forall (fun w => w <> "" /\ str_forallb q w = true) (str_words x).
Proof.
  intros Hx Hq. pose proof (words_cont_forall q x Hx Hq) as Hall.
  pose proof (words_cont_tail_nonempty x) as Hne.
  rewrite str_words_of_cont.
  destruct (words_cont x) as [|[|b w] rest]; [done| |].
  - apply Forall_cons in Hall as [_ Hall]. simpl in Hne.
    apply Forall_and. by split.
  - apply Forall_and. split; [|done]. by constructor.
Qed.

Lemma blank_forall t :
  str_forallb (fun c => is_space c || kept_char c) (str_map blank t) = true.
Proof.
  induction t as [|a t IH]; [done|]. cbn [str_map str_forallb]. rewrite IH.
  unfold blank, kept_char. destruct (disallowed a) eqn:Hd; [done|].
  rewrite Hd. by destruct (is_space a).
Qed.

Lemma kept_char_nonspace c : kept_char c = true -> is_space c = false.
Proof. unfold kept_char. by destruct (is_space c), (disallowed c). Qed.

(** X7: a cleaned text is a sequence of words separated by single
    spaces; a word is not empty and holds only allowed characters that are
    not white space.  So the result has no disallowed character, no white
    space other than the space, no two spaces in a row and no space at
    either end. *)
Theorem clean_text_shape (text : string) :
  exists words,
    _clean_text text = str_join " " words /\ Forall clean_word words.
Proof.
  exists (str_words (str_map blank text)). split; [apply clean_text_words|].
  apply str_words_clean; [apply blank_forall|apply kept_char_nonspace].
Qed.

Lemma words_cont_app w x :
  str_forallb (fun c => negb (is_space c)) w = true ->
  words_cont (w +:+ x)
  = match words_cont x with
    | h :: r => (w +:+ h) :: r
    | [] => []
    end.
Proof.
  induction w as [|a w IH]; intros Hw.
  - rewrite str_app_nil_l. by destruct (words_cont x).
  - cbn [str_forallb] in Hw. apply andb_true_iff in Hw as [Ha Hw].
    apply negb_true_iff in Ha.
    rewrite str_app_cons, words_cont_cons, Ha, (IH Hw).
    by destruct (words_cont x).
Qed.

Lemma clean_word_nonspace w :
  clean_word w -> str_forallb (fun c => negb (is_space c)) w = true.
Proof.
  intros [_ Hw]. induction w as [|a w IH]; [done|].
  cbn [str_forallb] in *. apply andb_true_iff in Hw as [Ha Hw].
  by rewrite (kept_char_nonspace a Ha), IH.
Qed.

Lemma str_words_join words :
  Forall clean_word words -> str_words (str_join " " words) = words.
Proof.
  induction 1 as [|w ws Hw Hws IH]; [done|].
  pose proof (clean_word_nonspace w Hw) as Hns.
  destruct Hw as [Hne Hw]. destruct w as [|a w]; [done|].
  assert (is_space a = false) as Ha.
  { cbn [str_forallb] in Hns. apply andb_true_iff in Hns as [Ha _].
    by apply negb_true_iff in Ha. }
  destruct ws as [|w2 ws].
  - cbn [str_join]. rewrite str_words_nonspace by done.
    rewrite <-(str_app_nil_r (String a w)) at 1.
    rewrite words_cont_app by done. rewrite words_cont_nil.
    by rewrite str_app_nil_r.
  - change (str_join " " (String a w :: w2 :: ws))
      with (String a (w +:+ " " +:+ str_join " " (w2 :: ws))).
    rewrite str_words_nonspace by done.
    change (String a (w +:+ " " +:+ str_join " " (w2 :: ws)))
      with (String a w +:+ String " " (str_join " " (w2 :: ws))).
    rewrite words_cont_app by done.
    rewrite words_cont_cons. change (is_space " ") with true. cbn iota.
    by rewrite IH, str_app_nil_r.
Qed.

Lemma str_map_blank_id s :
  str_forallb (fun c => negb (disallowed c)) s = true -> str_map blank s = s.
Proof.
  induction s as [|a s IH]; [done|]. cbn [str_forallb str_map].
  intros [Ha Hs]%andb_true_iff. apply negb_true_iff in Ha.
  unfold blank at 1. by rewrite Ha, IH.
Qed.

Lemma str_forallb_app p a b :
  str_forallb p (a +:+ b) = str_forallb p a && str_forallb p b.
Proof.
  induction a as [|x a IH]; [done|]. rewrite str_app_cons. cbn [str_forallb].
  by rewrite IH, andb_assoc.
Qed.

Lemma join_allowed words :
  Forall clean_word words ->
  str_forallb (fun c => negb (disallowed c)) (str_join " " words) = true.
Proof.
  assert (forall w, clean_word w ->
            str_forallb (fun c => negb (disallowed c)) w = true) as Hword.
  { intros w [_ Hw]. induction w as [|a w IH]; [done|].
    cbn [str_forallb] in *. apply andb_true_iff in Hw as [Ha Hw].
    rewrite (IH Hw). unfold kept_char in Ha. by destruct (disallowed a). }
  induction 1 as [|w ws Hw Hws IH]; [done|].
  destruct ws as [|w2 ws]; [by apply Hword|].
  change (str_join " " (w :: w2 :: ws))
    with (w +:+ String " " (str_join " " (w2 :: ws))).
  rewrite str_forallb_app, (Hword w Hw). cbn [str_forallb].
  rewrite IH. by vm_compute.
Qed.

(** X8: cleaning a cleaned text changes nothing. *)
Theorem clean_text_idempotent (text : string) :
  _clean_text (_clean_text text) = _clean_text text.
Proof.
  assert (exists words, _clean_text text = str_join " " words
                        /\ Forall clean_word words) as (words & -> & Hwords).
  { exists (str_words (str_map blank text)). split; [apply clean_text_words|].
    apply str_words_clean; [apply blank_forall|apply kept_char_nonspace]. }
  rewrite clean_text_words, str_map_blank_id by (by apply join_allowed).
  by rewrite str_words_join.
Qed.

Lemma filter_join_cont x :
  str_filter (fun c => negb (is_space c)) (str_join " " (words_cont x))
  = str_filter (fun c => negb (is_space c)) x
  /\ str_filter (fun c => negb (is_space c)) (str_join " " (str_words x))
     = str_filter (fun c => negb (is_space c)) x.
Proof.
  induction x as [|a x [IHc IHw]]; [done|].
  rewrite words_cont_cons, str_words_cons. cbn [str_filter].
  destruct (is_space a) eqn:Ha; cbn [negb].
  - split; [|done]. rewrite str_join_cons_empty, <-IHw.
    destruct (str_words x); [done|]. cbn [str_filter].
    by change (is_space " ") with true.
  - pose proof (words_cont_nonempty x) as Hne.
    destruct (words_cont x) as [|w rest]; [done|].
    rewrite str_join_cons_char. cbn [str_filter]. by rewrite Ha, IHc.
Qed.

Lemma filter_blank t :
  str_filter (fun c => negb (is_space c)) (str_map blank t)
  = str_filter kept_char t.
Proof.
  induction t as [|a t IH]; [done|]. cbn [str_map str_filter]. rewrite IH.
  unfold blank, kept_char. destruct (disallowed a) eqn:Hd.
  - by change (is_space " ") with true.
  - by destruct (is_space a).
Qed.

(** X9: cleaning keeps every allowed character that is not white
    space, in order, and adds nothing but spaces: without its spaces, the
    cleaned text is the input without its white space and its disallowed
    characters. *)
Theorem clean_text_keeps_allowed (text : string) :
  str_filter (fun c => negb (is_space c)) (_clean_text text)
  = str_filter kept_char text.
Proof.
  rewrite clean_text_words.
  destruct (filter_join_cont (str_map blank text)) as [_ ->].
  apply filter_blank.
Qed.
End CleaningFacts.

(** ** Further properties of [process_document] *)

Section ProcessorFacts.
Variable split_text : string -> list string.
Variable str_float : Q -> string.

Lemma chunk_record_inv document section_type n i t c :
  chunk_record str_float document section_type n i t = Some c ->
  exists m, _extract_metrics t = Some m
    /\ text c = t
    /\ metadata c !! "filing_id" = Some (MStr (filing_id document))
    /\ metadata c !! "company_name" = Some (MStr (company_name document))
    /\ metadata c !! "ticker" = Some (MStr (ticker document))
    /\ metadata c !! "filing_type" = Some (MStr (filing_type document))
    /\ metadata c !! "filing_date" = Some (MStr (filing_date document))
    /\ metadata c !! "section" = Some (MStr section_type)
    /\ metadata c !! "chunk_index" = Some (MInt (Z.of_nat i))
    /\ metadata c !! "total_chunks" = Some (MInt (Z.of_nat n))
    /\ metadata c !! "currency_amounts"
       = Some (MStr (str_join "," (map str_float (currency_amounts m))))
    /\ metadata c !! "percentages"
       = Some (MStr (str_join "," (map str_float (percentages m))))
    /\ metadata c !! "has_metrics"
       = Some (MStr (if str_nonempty_list (currency_amounts m)
                        || str_nonempty_list (percentages m)
                     then "true" else "false")).
Proof.
  unfold chunk_record. intros H.
  destruct (_extract_metrics t) as [m|]; simplify_eq/=.
  exists m. repeat split; by simplify_map_eq.
Qed.

Lemma mapM_imap_Forall2 {A B} (l : list A) : forall (f : nat -> A -> option B) cs,
  mapM (fun x => x) (imap f l) = Some cs ->
  length cs = length l
  /\ forall i c, cs !! i = Some c -> exists x, l !! i = Some x /\ f i x = Some c.
Proof.
  induction l as [|x l IH]; intros f cs H; simplify_option_eq.
  - split; [done|]. by intros i c ?.
  - destruct (IH _ _ Heqo0) as [Hlen Hnth]. split; [simpl; by rewrite Hlen|].
    intros [|i] c Hc; simplify_eq/=; [eauto|]. apply Hnth in Hc as (y & ? & ?). eauto.
Qed.

Lemma section_chunks_inv document sec cs :
  section_chunks split_text str_float document sec = Some cs ->
  map text cs = split_text (_clean_text (fst sec))
  /\ forall i c, cs !! i = Some c ->
       chunk_record str_float document (snd sec)
         (length (split_text (_clean_text (fst sec)))) i (text c) = Some c.
Proof.
  unfold section_chunks. intros H.
  apply mapM_imap_Forall2 in H as [Hlen Hnth]. split.
  - apply list_eq. intros i. rewrite list_lookup_fmap.
    destruct (cs !! i) as [c|] eqn:Hc; simpl.
    + destruct (Hnth i c Hc) as (t & Ht & Hr). rewrite Ht.
      apply chunk_record_inv in Hr as (m & _ & -> & _). done.
    + symmetry. apply lookup_ge_None. apply lookup_ge_None in Hc. lia.
  - intros i c Hc. destruct (Hnth i c Hc) as (t & Ht & Hr).
    pose proof Hr as Hr'. apply chunk_record_inv in Hr' as (m & _ & -> & _). done.
Qed.

Lemma process_document_inv document chunks :
  document_text document <> "" ->
  process_document split_text str_float document = Some chunks ->
  exists css,
    Forall2 (fun sec cs => section_chunks split_text str_float document sec = Some cs)
            (_split_into_sections (document_text document)) css
    /\ chunks = concat css.
Proof.
  unfold process_document. intros Hne H.
  destruct (document_text document) as [|a t] eqn:Ht; [done|]. simpl in H.
  destruct (mapM _ _) as [css|] eqn:Hm; [|done]. simpl in H. injection H as <-.
  exists css. split; [|done]. by apply mapM_Some.
Qed.

(** X10: [process_document] never raises, and the texts of its chunks
    are, in order, the windows the splitter cuts from the cleaned text of
    each span; an empty document text gives no chunk. *)
Theorem process_document_texts (document : SECDocument) :
  exists chunks,
    process_document split_text str_float document = Some chunks
    /\ map text chunks
       = if str_nonempty (document_text document)
         then concat (map (fun sec => split_text (_clean_text (fst sec)))
                          (_split_into_sections (document_text document)))
         else [].
Proof.
  destruct (process_document_total split_text str_float document) as [chunks H].
  exists chunks. split; [done|]. destruct (document_text document) as [|a t] eqn:Ht.
  - unfold process_document in H. rewrite Ht in H. by injection H as <-.
  - apply process_document_inv in H as (css & Hcss & ->); [|by rewrite Ht].
    rewrite Ht in Hcss. simpl str_nonempty. cbv iota.
    induction Hcss as [|sec cs secs' css Hs _ IH]; [done|].
    simpl. rewrite map_app, IH. f_equal. by apply section_chunks_inv in Hs as [-> _].
Qed.

Lemma section_chunks_invariants document secs : forall css,
  Forall2 (fun sec cs => section_chunks split_text str_float document sec = Some cs)
          secs css ->
  Forall (fun sp => In (snd sp) section_tags) secs ->
  Forall (Forall (fun c =>
    exists (i total : nat) (sec : string * string),
      In sec secs
      /\ split_text (_clean_text (fst sec)) !! i = Some (text c)
      /\ total = length (split_text (_clean_text (fst sec)))
      /\ i < total
      /\ metadata c !! "chunk_index" = Some (MInt (Z.of_nat i))
      /\ metadata c !! "total_chunks" = Some (MInt (Z.of_nat total))
      /\ metadata c !! "section" = Some (MStr (snd sec))
      /\ In (snd sec) section_tags
      /\ metadata c !! "filing_id" = Some (MStr (filing_id document))
      /\ metadata c !! "ticker" = Some (MStr (ticker document)))) css.
Proof.
  induction secs as [|sec secs IH]; intros css Hcss Htags;
    inversion Hcss as [|? cs ? css' Hs Hrest]; subst; [done|].
  inversion Htags as [|? ? Htag Htags']; subst.
  constructor.
  - apply section_chunks_inv in Hs as [Htexts Hrec].
    apply Forall_lookup. intros i c Hc.
    pose proof (Hrec i c Hc) as Hr.
    apply chunk_record_inv in Hr as (m & _ & _ & Hfid & _ & Htick & _ & _ & Hsec
                                     & Hidx & Htot & _).
    assert (split_text (_clean_text sec.1) !! i = Some (text c)) as Hi.
    { rewrite <-Htexts, list_lookup_fmap, Hc. done. }
    exists i, (length (split_text (_clean_text sec.1))), sec.
    split; [by left|]. split; [done|]. split; [done|].
    split; [by eapply lookup_lt_Some|]. done.
  - eapply Forall_impl; [by apply IH|].
    intros cs' Hcs'. eapply Forall_impl; [exact Hcs'|].
    intros c (i & total & sec' & Hin & Hrest'). exists i, total, sec'.
    split; [by right|done].
Qed.

(** X11: every chunk of [process_document] comes from one span of
    the document.  Its text is window [i] of the cleaned span, its
    [chunk_index] is [i] and lies below its [total_chunks], the number of
    windows of that span; its [section] is the span's tag, one of the six;
    its [filing_id] and [ticker] are the document's. *)
Theorem process_document_chunk_invariants (document : SECDocument) :
  exists chunks,
  process_document split_text str_float document = Some chunks /\
  Forall (fun c =>
    exists (i total : nat) (sec : string * string),
      In sec (_split_into_sections (document_text document))
      /\ split_text (_clean_text (fst sec)) !! i = Some (text c)
      /\ total = length (split_text (_clean_text (fst sec)))
      /\ i < total
      /\ metadata c !! "chunk_index" = Some (MInt (Z.of_nat i))
      /\ metadata c !! "total_chunks" = Some (MInt (Z.of_nat total))
      /\ metadata c !! "section" = Some (MStr (snd sec))
      /\ In (snd sec) section_tags
      /\ metadata c !! "filing_id" = Some (MStr (filing_id document))
      /\ metadata c !! "ticker" = Some (MStr (ticker document))) chunks.
Proof.
  destruct (process_document_total split_text str_float document) as [chunks H].
  exists chunks. split; [done|].
  destruct (document_text document) as [|a t] eqn:Ht.
  { unfold process_document in H. rewrite Ht in H. by injection H as <-. }
  apply process_document_inv in H as (css & Hcss & ->); [|by rewrite Ht].
  rewrite Ht in Hcss. apply Forall_concat.
  apply section_chunks_invariants; [done|apply split_into_sections_tags].
Qed.
(** X12: within one section the record keys are the filing id
    followed by 0, 1, 2, ... in chunk order, and pairwise distinct. *)
Theorem section_keys_distinct (document : SECDocument) (sec : string * string) :
  exists cs ids,
    section_chunks split_text str_float document sec = Some cs
    /\ mapM record_key cs = Some ids
    /\ ids = map (key_of document) (List.seq 0 (length cs))
    /\ NoDup ids.
Proof.
  destruct (section_chunks_total split_text str_float document sec) as [cs Hcs].
  exists cs, (map (key_of document) (List.seq 0 (length cs))).
  split; [done|]. split; [|split; [done|]].
  - apply mapM_Some. apply section_chunks_inv in Hcs as [_ Hrec].
    apply Forall2_same_length_lookup. split; [by rewrite length_map, length_seq|].
    intros i c id Hc Hid. apply Hrec in Hc.
    apply chunk_record_key in Hc. rewrite Hc.
    rewrite list_lookup_fmap in Hid.
    destruct (List.seq 0 (length cs) !! i) as [j|] eqn:Hj; [|done].
    apply lookup_seq in Hj as [-> _]. simpl in Hid. by injection Hid as <-.
  - apply NoDup_fmap_2; [|apply NoDup_seq].
    intros i j Hij. unfold key_of in Hij.
    apply (inj (String.app _)) in Hij. apply (inj (String.app _)) in Hij.
    apply (inj pretty) in Hij. lia.
Qed.

(** X13: what [process_document] stores about metrics can be read
    back.  Provided [str] of a float is not empty, holds no comma and is
    accepted by [float]: for every chunk, parsing the stored
    [currency_amounts] and [percentages] succeeds and gives as many values
    as [_extract_metrics] finds in the chunk text, and [has_metrics] is
    'false' exactly when it finds none. *)
Theorem process_document_metrics_round_trip (float_accepts : string -> bool)
    (document : SECDocument) :
  (forall q, str_float q <> "" /\ contains_char "," (str_float q) = false
             /\ float_accepts (str_float q) = true) ->
  exists chunks,
    process_document split_text str_float document = Some chunks
    /\ Forall (fun c =>
         exists m, _extract_metrics (text c) = Some m
           /\ count_floats float_accepts (metadata c) "currency_amounts"
              = Some (length (currency_amounts m))
           /\ count_floats float_accepts (metadata c) "percentages"
              = Some (length (percentages m))
           /\ (metadata c !! "has_metrics" = Some (MStr "false") <->
               currency_amounts m = [] /\ percentages m = [])
           /\ meta_parses float_accepts (metadata c)) chunks.
Proof.
  intros Hfloat.
  destruct (process_document_total split_text str_float document) as [chunks H].
  exists chunks. split; [done|].
  destruct (document_text document) as [|a t] eqn:Ht.
  { unfold process_document in H. rewrite Ht in H. by injection H as <-. }
  apply process_document_inv in H as (css & Hcss & ->); [|by rewrite Ht].
  apply Forall_concat. clear Ht.
  induction Hcss as [|sec cs secs css Hs _ IH]; [done|]. constructor; [|done].
  apply section_chunks_inv in Hs as [_ Hrec].
  apply Forall_lookup. intros i c Hc. apply Hrec in Hc.
  apply chunk_record_inv in Hc
    as (m & Hm & _ & _ & _ & _ & _ & _ & _ & _ & _ & Hcur & Hpct & Hflag).
  exists m. split; [done|].
  assert (forall l : list Q, count_floats_of float_accepts
            (str_join "," (map str_float l)) = Some (length l)) as Hcount.
  { intros l. unfold count_floats_of.
    rewrite (split_join_nonempty "," (map str_float l)).
    - rewrite length_map.
      assert (forallb float_accepts (map str_float l) = true) as ->; [|done].
      apply forallb_forall. intros x (q & <- & _)%in_map_iff. apply Hfloat.
    - apply Forall_forall. intros x (q & -> & _)%list_elem_of_fmap.
      destruct (Hfloat q) as (? & ? & _). done. }
  assert (count_floats float_accepts (metadata c) "currency_amounts"
          = Some (length (currency_amounts m))) as H1.
  { unfold count_floats. rewrite Hcur. simpl. apply Hcount. }
  assert (count_floats float_accepts (metadata c) "percentages"
          = Some (length (percentages m))) as H2.
  { unfold count_floats. rewrite Hpct. simpl. apply Hcount. }
  split; [done|]. split; [done|]. split.
  - rewrite Hflag. destruct (currency_amounts m), (percentages m); simpl;
      split; try done; by intros [? ?].
  - intros _. rewrite H1, H2. eauto.
Qed.
End ProcessorFacts.

(** ** Further properties of [add_documents] *)


Section IndexingFacts.
Variable split_text : string -> list string.
Variable str_float : Q -> string.


End IndexingFacts.

(** ** The reconciler: when it returns, and what a second pass does *)

Section ReconcilerReturns.
Variable float_accepts : string -> bool.
Local Abbreviation parses := (record_parses float_accepts).
Local Abbreviation settled := (record_settled float_accepts).

Lemma annotate_is_Some_iff σ r :
  is_Some (annotate float_accepts σ r) <-> parses σ r.
Proof.
  split.
  - unfold annotate. intros [σ1 H].
    destruct (σ !! r) as [m|] eqn:Hr; [|done]. simpl in H.
    exists m. split; [done|]. intros Hh. rewrite decide_True in H by done.
    destruct (count_floats float_accepts m "currency_amounts"); [|done].
    destruct (count_floats float_accepts m "percentages"); [|done].
    split; by eexists.
  - intros (m & Hr & Hm). by apply (annotate_is_Some float_accepts σ r m).
Qed.

Lemma annotate_parses_iff σ r σ1 r' :
  annotate float_accepts σ r = Some σ1 ->
  parses σ1 r' <-> parses σ r'.
Proof.
  unfold annotate. intros H.
  destruct (σ !! r) as [m|] eqn:Hr; [|done]. simpl in H.
  case_decide as Hh; [|by simplify_eq].
  destruct (count_floats float_accepts m "currency_amounts") as [n1|]; [|done].
  destruct (count_floats float_accepts m "percentages") as [n2|]; [|done].
  simpl in H. injection H as <-. unfold record_parses.
  destruct (decide (r = r')) as [<-|Hne].
  - rewrite lookup_insert_eq. split.
    + intros (m' & Hm' & Hp). injection Hm' as <-. exists m. split; [done|].
      unfold meta_parses in *. rewrite lookup_insert_ne in Hp by done.
      by rewrite !count_floats_insert in Hp.
    + intros (m' & Hm' & Hp).
      pose proof (eq_trans (eq_sym Hr) Hm') as Heq. injection Heq as <-.
      eexists. split; [done|].
      unfold meta_parses. rewrite lookup_insert_ne by done.
      by rewrite !count_floats_insert.
  - by rewrite lookup_insert_ne.
Qed.

Lemma reconcile_is_Some_iff limit : forall items processed seen σ,
  (Z.of_nat (length processed) < limit)%Z ->
  is_Some (reconcile float_accepts limit items processed seen σ) <->
  Forall (fun p => parses σ p.2)
         (take (Z.to_nat limit - length processed) (first_seen seen items)).
Proof.
  induction items as [|[doc r] items IH]; intros processed seen σ Hlt; simpl.
  - rewrite take_nil. split; [done|]. by eexists.
  - case_decide as Hseen; simpl.
    + assert ((limit <=? Z.of_nat (length processed))%Z = false) as ->
        by (apply Z.leb_gt; lia).
      by apply IH.
    + destruct (Z.to_nat limit - length processed) as [|n] eqn:Hn; [lia|].
      simpl. rewrite Forall_cons. simpl.
      destruct (annotate float_accepts σ r) as [σ1|] eqn:Hσ1; simpl.
      * assert (parses σ r) as Hr
          by (apply annotate_is_Some_iff; by eexists).
        rewrite length_app. simpl.
        destruct (limit <=? _)%Z eqn:Hle.
        -- apply Z.leb_le in Hle. assert (n = 0) as -> by lia.
           rewrite take_0. split; [done|]. by eexists.
        -- apply Z.leb_gt in Hle.
           rewrite IH by (rewrite length_app; simpl; lia).
           rewrite length_app. simpl.
           replace (Z.to_nat limit - (length processed + 1)) with n by lia.
           split.
           ++ intros H. split; [done|]. eapply Forall_impl; [exact H|].
              intros p. simpl. by rewrite (annotate_parses_iff _ _ _ p.2 Hσ1).
           ++ intros [_ H]. eapply Forall_impl; [exact H|].
              intros p. simpl. by rewrite (annotate_parses_iff _ _ _ p.2 Hσ1).
      * split; [by intros [? ?]|]. intros [Hr _].
        apply annotate_is_Some_iff in Hr as [? Hr].
        pose proof (eq_trans (eq_sym Hr) Hσ1). done.
Qed.

(** X16: for a limit of at least one: an envelope without documents
    gives a fresh empty envelope and leaves the store alone, whatever else
    it holds.  Otherwise the reconciler returns exactly when the envelope
    has a metadata list and the record of every pair it retains can be
    parsed back; a malformed record behind a repeated signature or beyond
    the cap goes unnoticed. *)
Theorem process_results_returns_iff (σ : store) (results : envelope) (limit : Z) :
  (1 <= limit)%Z ->
  (hd [] (res_documents results) = [] ->
   _process_results float_accepts σ results limit = Some (empty_envelope, σ))
  /\ (hd [] (res_documents results) <> [] ->
      (is_Some (_process_results float_accepts σ results limit) <->
       res_metadatas results <> []
       /\ Forall (fun p => parses σ p.2)
                 (take (Z.to_nat limit) (first_seen ∅ (pairs results))))).
Proof.
  intros Hlimit. unfold _process_results, pairs.
  destruct (res_documents results) as [|[|d docs0] dtl]; cbn [hd].
  - split; [done|]. done.
  - split; [done|]. done.
  - split; [done|]. intros _.
    destruct (res_metadatas results) as [|metas0 mtl]; cbn [hd head].
    + split; [by intros [? ?]|]. by intros [? _].
    + pose proof (reconcile_is_Some_iff limit (zip (d :: docs0) metas0) [] ∅ σ) as Hiff.
      cbn [length] in Hiff. rewrite Nat.sub_0_r in Hiff. rewrite <-Hiff by lia.
      clear Hiff. cbn [mbind option_bind].
      destruct (reconcile float_accepts limit (zip (d :: docs0) metas0) [] ∅ σ)
        as [[kept σ1]|].
      * split; [intros _; split; [done|by eexists]|by eexists].
      * split; [by intros [? ?]|]. by intros [_ [? ?]].
Qed.

Lemma annotate_fixed σ r :
  settled σ r -> annotate float_accepts σ r = Some σ.
Proof.
  intros (m & Hr & Hs). unfold annotate. rewrite Hr. simpl.
  case_decide as Hh; [|done].
  destruct (Hs Hh) as (n1 & n2 & -> & -> & Hsum). simpl.
  by rewrite (insert_id m), (insert_id σ).
Qed.

Lemma annotate_settles σ r σ1 :
  annotate float_accepts σ r = Some σ1 ->
  settled σ1 r
  /\ forall r', settled σ r' -> settled σ1 r'.
Proof.
  unfold annotate. intros H.
  destruct (σ !! r) as [m|] eqn:Hr; [|done]. simpl in H.
  case_decide as Hh.
  - destruct (count_floats float_accepts m "currency_amounts") as [n1|] eqn:H1;
      [|done].
    destruct (count_floats float_accepts m "percentages") as [n2|] eqn:H2; [|done].
    simpl in H. injection H as <-.
    assert (settled (<[r:=<["metrics_summary":=MStr (summary_text n1 n2)]> m]> σ) r)
      as Hdone.
    { eexists. split; [apply lookup_insert_eq|]. intros _. exists n1, n2.
      rewrite !count_floats_insert by done. by rewrite lookup_insert_eq. }
    split; [done|]. intros r' Hr'.
    destruct (decide (r = r')) as [<-|Hne]; [done|].
    destruct Hr' as (m' & Hm' & Hs). exists m'. by rewrite lookup_insert_ne.
  - injection H as <-. split; [|done]. by exists m.
Qed.

Lemma reconcile_settles limit : forall items processed seen σ out σ',
  reconcile float_accepts limit items processed seen σ = Some (out, σ') ->
  Forall (fun p => settled σ p.2) processed ->
  Forall (fun p => settled σ' p.2) out.
Proof.
  induction items as [|[doc r] items IH]; intros processed seen σ out σ' H Hd;
    simpl in H.
  - by simplify_eq.
  - case_decide as Hseen; simpl in H.
    + destruct (limit <=? _)%Z; [by simplify_eq|]. by eapply IH.
    + destruct (annotate float_accepts σ r) as [σ1|] eqn:Hσ1; [|done].
      simpl in H. apply annotate_settles in Hσ1 as [Hr Hmono].
      assert (Forall (fun p => settled σ1 p.2) (processed ++ [(doc, r)]))
        as Hd1.
      { apply Forall_app. split; [|by constructor].
        eapply Forall_impl; [exact Hd|]. intros p. apply Hmono. }
      destruct (limit <=? _)%Z; [by simplify_eq|]. by eapply IH.
Qed.

Lemma reconcile_shape limit : forall items processed seen σ out σ',
  reconcile float_accepts limit items processed seen σ = Some (out, σ') ->
  (exists n, out = processed ++ take n (first_seen seen items))
  /\ (Z.of_nat (length out) <= Z.max limit (Z.of_nat (length processed) + 1))%Z.
Proof.
  induction items as [|[doc r] items IH]; intros processed seen σ out σ' H;
    simpl in H.
  - simplify_eq. split; [|lia]. exists 0. simpl. by rewrite app_nil_r.
  - case_decide as Hseen; simpl in H.
    + destruct (limit <=? _)%Z eqn:Hle.
      * simplify_eq. split; [|lia]. exists 0. simpl. by rewrite app_nil_r.
      * apply IH in H as [[n ->] Hlen]. split; [|done]. exists n. simpl.
        by rewrite decide_True.
    + destruct (annotate float_accepts σ r) as [σ1|]; [|done]. simpl in H.
      destruct (limit <=? _)%Z eqn:Hle.
      * simplify_eq. rewrite length_app. simpl. split; [|lia].
        exists 1. simpl. by rewrite decide_False.
      * apply Z.leb_gt in Hle. rewrite length_app in Hle. simpl in Hle.
        apply IH in H as [[n ->] Hlen]. rewrite !length_app in *. simpl in *.
        split; [|lia]. exists (S n). simpl. rewrite decide_False by done.
        simpl. by rewrite <-app_assoc.
Qed.

Lemma reconcile_fixed limit : forall items processed seen σ,
  Forall (fun p => settled σ p.2) items ->
  NoDup (map (fun p => str_take 100 p.1) items) ->
  (forall p, p ∈ items -> str_take 100 p.1 ∉ seen) ->
  reconcile float_accepts limit items processed seen σ
  = Some (processed
          ++ take (Z.to_nat (Z.max 1 (limit - Z.of_nat (length processed)))) items,
          σ).
Proof.
  induction items as [|[doc r] items IH]; intros processed seen σ Hs Hnd Hfresh;
    simpl.
  - by rewrite take_nil, app_nil_r.
  - rewrite decide_False by (apply (Hfresh (doc, r)); by left).
    apply Forall_cons in Hs as [Hr Hs]. simpl in Hr.
    rewrite (annotate_fixed _ _ Hr). simpl.
    apply NoDup_cons in Hnd as [Hnotin Hnd].
    rewrite length_app. simpl.
    destruct (limit <=? _)%Z eqn:Hle.
    + apply Z.leb_le in Hle.
      replace (Z.to_nat (Z.max 1 (limit - Z.of_nat (length processed)))) with 1
        by lia.
      simpl. by rewrite take_0.
    + apply Z.leb_gt in Hle. rewrite IH; [|done|done|].
      * rewrite length_app. simpl. rewrite <-app_assoc. simpl.
        replace (Z.to_nat (Z.max 1 (limit - Z.of_nat (length processed))))
          with (S (Z.to_nat (Z.max 1 (limit - Z.of_nat (length processed + 1)))))
          by lia.
        done.
      * intros p Hp. apply not_elem_of_union. split; [|apply Hfresh; by right].
        intros Heq%elem_of_singleton. apply Hnotin.
        apply list_elem_of_fmap. by exists p.
Qed.

(** X17: reconciling again what the reconciler returned changes
    nothing: the same envelope comes back and the store stays as the first
    pass left it, for every limit. *)
Theorem process_results_idempotent (σ : store) (results : envelope) (limit : Z)
    (out : envelope) (σ' : store) :
  _process_results float_accepts σ results limit = Some (out, σ') ->
  _process_results float_accepts σ' out limit = Some (out, σ').
Proof.
  intros H. apply process_results_kept in H as (kept & -> & _ & Hrun).
  destruct kept as [|p kept]; [done|].
  destruct Hrun as [(_ & ? & _)|Hrun]; [done|].
  unfold _process_results.
  change (res_documents (Envelope [map fst (p :: kept)] [map snd (p :: kept)]))
    with [p.1 :: map fst kept].
  change (res_metadatas (Envelope [map fst (p :: kept)] [map snd (p :: kept)]))
    with [map snd (p :: kept)].
  cbn [head mbind option_bind].
  change (p.1 :: map fst kept) with (map fst (p :: kept)).
  rewrite zip_fst_snd.
  pose proof (reconcile_settles _ _ _ _ _ _ _ Hrun (Forall_nil_2 _)) as Hset.
  apply reconcile_shape in Hrun as [[n Hn] Hlen]. simpl in Hn, Hlen.
  rewrite reconcile_fixed; [|done| |intros ? _; apply not_elem_of_empty].
  - rewrite take_ge by (simpl; lia). done.
  - rewrite Hn.
    pose proof (first_seen_NoDup ∅ (pairs results)) as Hnd.
    rewrite <-(take_drop n (first_seen ∅ (pairs results))), map_app in Hnd.
    by apply NoDup_app in Hnd as [? _].
Qed.
End ReconcilerReturns.

(** ** The analyzer *)

Section AnalyzerFacts.
Variable float_accepts : string -> bool.

Lemma organize_loop_groups σ : forall items organized out,
  organize_loop float_accepts σ items organized = Some out ->
  exists entries,
    mapM (organize_pair float_accepts σ) items = Some entries
    /\ forall company,
         default [] (out !! company)
         = default [] (organized !! company)
           ++ map snd (filter (fun ke => ke.1 = company) entries)
         /\ (is_Some (out !! company) <->
             is_Some (organized !! company)
             \/ filter (fun ke => ke.1 = company) entries <> []).
Proof.
  induction items as [|[doc r] items IH]; intros organized out H; simpl in H.
  - simplify_eq. exists []. split; [done|]. intros company.
    rewrite filter_nil. simpl. rewrite app_nil_r. split; [done|].
    split; [by left|by intros [?|?]].
  - destruct (σ !! r) as [m|] eqn:Hr; [|done]. simpl in H.
    destruct (organize_entry float_accepts doc m) as [[k e]|] eqn:He; [|done].
    simpl in H.
    apply IH in H as (entries & Hm & Hout).
    exists ((k, e) :: entries). split.
    { cbn [mapM]. rewrite Hm. unfold organize_pair. cbn [fst snd].
      rewrite Hr. simpl. by rewrite He. }
    intros company.
    destruct (Hout company) as [Hd Hs]. rewrite Hd, Hs. clear Hd Hs Hout.
    rewrite filter_cons. simpl.
    destruct (decide (k = company)) as [->|Hne].
    + rewrite lookup_insert_eq. simpl. rewrite <-app_assoc. split; [done|].
      split; [by right|]. intros _. left. by eexists.
    + rewrite lookup_insert_ne by done. done.
Qed.

(** X18: what [_organize_results] returns: under each company, the
    entries of the results that carry its ticker, all of them and in the
    order of the results; no other key, and no empty list. *)
Theorem organize_results_groups (σ : store) (results : envelope)
    (organized : gmap mval (list topic_entry)) :
  _organize_results float_accepts σ results = Some organized ->
  exists entries,
    (hd [] (res_documents results) <> [] ->
     mapM (organize_pair float_accepts σ) (pairs results) = Some entries)
    /\ (hd [] (res_documents results) = [] -> entries = [])
    /\ forall company,
         organized !! company
         = match filter (fun ke => ke.1 = company) entries with
           | [] => None
           | es => Some (map snd es)
           end.
Proof.
  unfold _organize_results, pairs. intros H.
  destruct (res_documents results) as [|[|d docs0] dtl]; cbn [hd].
  - injection H as <-. exists []. by repeat split.
  - injection H as <-. exists []. by repeat split.
  - destruct (res_metadatas results) as [|metas0 mtl]; [done|].
    cbn [head mbind option_bind hd] in H |- *.
    apply organize_loop_groups in H as (entries & Hm & Hout).
    exists entries. split; [done|]. split; [done|]. intros company.
    destruct (Hout company) as [Hd Hs].
    rewrite lookup_empty in Hd, Hs. simpl in Hd.
    destruct (filter _ entries) as [|ke es] eqn:Hf.
    + destruct (organized !! company) as [x|] eqn:Hx; [|done].
      destruct Hs as [Hs _]. destruct Hs as [[? ?]|?]; done.
    + destruct (organized !! company) as [x|] eqn:Hx.
      * simpl in Hd. by rewrite Hd.
      * destruct Hs as [_ Hs]. destruct Hs as [? ?]; [by right|done].
Qed.

Lemma organize_entry_ignores_summary doc m v :
  organize_entry float_accepts doc (<["metrics_summary" := v]> m)
  = organize_entry float_accepts doc m.
Proof.
  unfold organize_entry.
  rewrite !count_floats_insert by done.
  by rewrite !lookup_insert_ne by done.
Qed.

Lemma organize_loop_ignores_summary σ σ' :
  touched_only_by_annotation float_accepts σ σ' ->
  forall items organized,
    organize_loop float_accepts σ' items organized
    = organize_loop float_accepts σ items organized.
Proof.
  intros Hinv. induction items as [|[doc r] items IH]; intros organized; [done|].
  simpl. destruct (Hinv r) as [->|(m & m' & -> & _ & (n1 & n2 & _ & _ & ->) & ->)].
  - destruct (σ !! r) as [m|]; [|done]. simpl.
    destruct (organize_entry float_accepts doc m) as [[k e]|]; [|done]. apply IH.
  - simpl. rewrite organize_entry_ignores_summary.
    destruct (organize_entry float_accepts doc m) as [[k e]|]; [|done]. apply IH.
Qed.

(** X19: the analyzer never reads the summary the reconciler
    writes: organizing the reconciled envelope gives the same result on the
    store the reconciler left as on the store it was given. *)
Theorem organize_results_ignores_annotation (σ : store) (results : envelope)
    (limit : Z) (out : envelope) (σ' : store) :
  _process_results float_accepts σ results limit = Some (out, σ') ->
  _organize_results float_accepts σ' out = _organize_results float_accepts σ out.
Proof.
  intros H. apply process_results_kept in H as (kept & -> & _ & Hrun).
  destruct Hrun as [(_ & -> & ->)|Hrun]; [done|].
  eapply (reconcile_annotates float_accepts σ) in Hrun as (Hinv & _);
    [|by left|done].
  unfold _organize_results. simpl.
  destruct (map fst kept); [done|]. simpl.
  by apply organize_loop_ignores_summary.
Qed.

Variable collection_query :
  list string -> Z -> option pyval -> option (envelope * store).

(** X20: [analyze_topic] never fails in the filter translation, and
    its filter is of a supported shape.  Without companies and filing types
    the engine is queried without filter; otherwise with one disjunction
    per given list, holding exactly the given values, and their conjunction
    when both are given.  What it returns is the engine's answer,
    reconciled, then organized. *)
Theorem analyze_topic_pipeline (topic : string)
    (companies filing_types : option (list string)) (limit : Z) :
  let any_of key values :=
    PDict [("$or", PList (map (fun v => PDict [(key, PStr v)]) values))] in
  let where_ :=
    match default [] companies, default [] filing_types with
    | [], [] => None
    | cs, [] => Some (any_of "ticker" cs)
    | [], fs => Some (any_of "filing_type" fs)
    | cs, fs => Some (PDict [("$and", PList [any_of "ticker" cs;
                                              any_of "filing_type" fs])])
    end in
  supported_filter (topic_filter companies filing_types) = true
  /\ _build_where_clause (Some (topic_filter companies filing_types)) = Some where_
  /\ analyze_topic float_accepts collection_query topic companies filing_types limit
     = '(results, σ) ← collection_query [topic] (limit * 2)%Z where_;
       '(out, σ') ← _process_results float_accepts σ results limit;
       _organize_results float_accepts σ' out.
Proof.
  intros any_of where_.
  assert (forall l, forallb plain_value (map PStr l) = true) as Hplain
    by (intros l; by induction l).
  assert (_build_where_clause (Some (topic_filter companies filing_types))
          = Some where_) as Hw.
  { unfold where_, any_of, topic_filter, in_filter.
    destruct companies as [[|c cs]|], filing_types as [[|f fs]|]; simpl;
      by rewrite ?map_map. }
  split; [|split; [done|]].
  - unfold topic_filter, in_filter.
    destruct companies as [[|c cs]|], filing_types as [[|f fs]|]; simpl;
      by rewrite ?(Hplain cs), ?(Hplain fs).
  - unfold analyze_topic, search. rewrite Hw. simpl.
    destruct (collection_query [topic] (limit * 2)%Z where_) as [[results σ]|];
      [|done].
    simpl. by destruct (_process_results float_accepts σ results limit) as [[? ?]|].
Qed.
End AnalyzerFacts.

(** ** Instances *)

Lemma process_document_metrics_round_trip_witness :
  let document :=
    {| filing_id := "0000320193-24-000001"; company_name := "Apple Inc.";
       ticker := "AAPL"; filing_type := "10-K";
       filing_date := "2024-01-01 00:00:00";
       document_text := "Item 1A. Risk Factors" +:+ NL
                        +:+ "Revenue grew 5% to $3 million.";
       doc_metadata := ∅; doc_sections := ∅ |} in
  exists chunks,
    process_document (fun s => [s]) (fun _ => "0.0") document = Some chunks
    /\ Forall (fun c => meta_parses (fun _ => true) (metadata c)) chunks.
Proof.
  intros document.
  destruct (process_document_metrics_round_trip
              (fun s => [s]) (fun _ => "0.0") (fun _ => true) document)
    as (chunks & Hrun & Hall).
  - intros q. repeat split; done.
  - exists chunks. split; [exact Hrun|].
    eapply Forall_impl; [exact Hall|].
    intros c (m & _ & _ & _ & _ & Hparses). exact Hparses.
Defined.

Lemma process_results_returns_iff_witness :
  let good : gmap string mval :=
    {[ "has_metrics" := MStr "true"; "currency_amounts" := MStr "3000000.0";
       "percentages" := MStr "5.0" ]} in
  let bad : gmap string mval :=
    {[ "has_metrics" := MStr "true"; "currency_amounts" := MStr "n/a" ]} in
  let σ : store := {[ 0 := good; 1 := bad; 2 := bad ]} in
  let results :=
    Envelope [["Revenue grew."; "Revenue grew."; "Costs fell."]] [[0; 1; 2]] in
  let float_accepts := fun s => negb (String.eqb s "n/a") in
  is_Some (_process_results float_accepts σ results 1)
  /\ ~ is_Some (_process_results float_accepts σ results 2).
Proof.
  intros good bad σ results float_accepts.
  assert (forall limit, (1 <= limit)%Z ->
            is_Some (_process_results float_accepts σ results limit) <->
            res_metadatas results <> []
            /\ Forall (fun p => record_parses float_accepts σ p.2)
                      (take (Z.to_nat limit) (first_seen ∅ (pairs results)))) as H.
  { intros limit Hlimit.
    apply (process_results_returns_iff float_accepts σ results limit Hlimit).
    done. }
  split.
  - apply H; [lia|]. split; [done|].
    constructor; [|constructor]. exists good. split; [reflexivity|].
    intros _. split; by eexists.
  - intros [_ Hall]%H; [|lia].
    assert (take (Z.to_nat 2) (first_seen ∅ (pairs results))
            = [("Revenue grew.", 0); ("Costs fell.", 2)]) as Heq by (by vm_compute).
    rewrite Heq in Hall. apply Forall_cons in Hall as [_ Hall].
    apply Forall_cons in Hall as [(m & Hm & Hp) _].
    assert (σ !! 2 = Some bad) as Hbad by (vm_cast_no_check (eq_refl (Some bad))).
    pose proof (eq_trans (eq_sym Hm) Hbad) as Heq'. injection Heq' as ->.
    destruct Hp as [[n Hn] _]; [reflexivity|].
    vm_compute in Hn. discriminate.
Defined.

Lemma process_results_idempotent_witness :
  let m : gmap string mval :=
    {[ "has_metrics" := MStr "true"; "currency_amounts" := MStr "1500000.0,2.5";
       "percentages" := MStr ""; "ticker" := MStr "AAPL" ]} in
  let σ : store := {[ 0 := m; 1 := ∅ ]} in
  let results :=
    Envelope [["Revenue grew."; "Revenue grew."; "Costs fell."]] [[0; 1; 1]] in
  let out := Envelope [["Revenue grew."; "Costs fell."]] [[0; 1]] in
  let σ' : store :=
    <[0 := <["metrics_summary" :=
               MStr "Found 2 currency amounts and 0 percentage values"]> m]> σ in
  _process_results (fun _ => true) σ results 5 = Some (out, σ')
  /\ _process_results (fun _ => true) σ' out 5 = Some (out, σ').
Proof.
  intros m σ results out σ'.
  assert (_process_results (fun _ => true) σ results 5 = Some (out, σ')) as H
    by (vm_cast_no_check (eq_refl (Some (out, σ')))).
  split; [exact H|].
  exact (process_results_idempotent (fun _ => true) σ results 5 out σ' H).
Defined.

Lemma organize_results_groups_witness :
  let record (t : string) : gmap string mval :=
    {[ "ticker" := MStr t; "filing_type" := MStr "10-K";
       "filing_date" := MStr "2024-01-01 00:00:00"; "has_metrics" := MStr "false" ]} in
  let σ : store := {[ 0 := record "AAPL"; 1 := record "MSFT"; 2 := record "AAPL" ]} in
  let results :=
    Envelope [["Revenue grew."; "Cloud grew."; "Costs fell."]] [[0; 1; 2]] in
  let entry doc :=
    TopicEntry doc (MStr "10-K") (MStr "2024-01-01 00:00:00") (MStr "main") "" in
  let organized : gmap mval (list topic_entry) :=
    {[ MStr "AAPL" := [entry "Revenue grew."; entry "Costs fell."];
       MStr "MSFT" := [entry "Cloud grew."] ]} in
  _organize_results (fun _ => true) σ results = Some organized
  /\ exists entries,
       mapM (organize_pair (fun _ => true) σ) (pairs results) = Some entries
       /\ forall company,
            organized !! company
            = match filter (fun ke => ke.1 = company) entries with
              | [] => None
              | es => Some (map snd es)
              end.
Proof.
  intros record σ results entry organized.
  assert (_organize_results (fun _ => true) σ results = Some organized) as H
    by (vm_cast_no_check (eq_refl (Some organized))).
  split; [exact H|].
  destruct (organize_results_groups (fun _ => true) σ results organized H)
    as (entries & Hentries & _ & Hgroups).
  exists entries. split; [by apply Hentries|exact Hgroups].
Defined.

Lemma organize_results_ignores_annotation_witness :
  let m : gmap string mval :=
    {[ "ticker" := MStr "AAPL"; "filing_type" := MStr "10-K";
       "filing_date" := MStr "2024-01-01 00:00:00";
       "has_metrics" := MStr "true"; "currency_amounts" := MStr "1500000.0,2.5";
       "percentages" := MStr "" ]} in
  let σ : store := {[ 0 := m ]} in
  let results := Envelope [["Revenue grew."]] [[0]] in
  let σ' : store :=
    <[0 := <["metrics_summary" :=
               MStr "Found 2 currency amounts and 0 percentage values"]> m]> σ in
  _process_results (fun _ => true) σ results 5 = Some (results, σ')
  /\ _organize_results (fun _ => true) σ' results
     = _organize_results (fun _ => true) σ results
  /\ is_Some (_organize_results (fun _ => true) σ results).
Proof.
  intros m σ results σ'.
  assert (_process_results (fun _ => true) σ results 5 = Some (results, σ')) as H
    by (vm_cast_no_check (eq_refl (Some (results, σ')))).
  split; [exact H|]. split.
  - exact (organize_results_ignores_annotation (fun _ => true) σ results 5
             results σ' H).
  - destruct (_organize_results (fun _ => true) σ results) as [organized|] eqn:Ho;
      [by eexists|by vm_compute in Ho].
Defined.
